(** * realtime-sync: rooms, broadcast, presence and snapshot persistence

    A shallow embedding of the two TypeScript modules that make up the core
    of the repository:

    - [SyncCore] follows [sync-core/src/index.ts] (class [SyncRoom]);
    - [Rooms] follows the registry module [rooms.ts] of sync-whiteboard, as
      found in [sync-whiteboard/src/server.ts] ([readSnapshotIfExists],
      [saveSnapshot], the [getOrCreateRoom] that chains on [mutex], and the
      [setInterval] persistence loop). The document engine [TLSocketRoom]
      is a library object; the model keeps what the registry reads and
      calls, and takes its constructor, which may throw, as a parameter.

    JavaScript objects that are mutated in place are kept in explicit stores
    and the methods are state-passing functions; a [throw] is a result value
    that carries the state reached when the exception left the method. *)

From stdpp Require Import base list strings.

Set Default Proof Using "Type".

(** ** Results of calls that may throw *)

Inductive Result (E A : Type) : Type :=
| Ok (a : A)
| Throw (e : E).
Arguments Ok {E A} a.
Arguments Throw {E A} e.

(** ** The JavaScript [Map] with string keys

    A [Map] iterates in insertion order, [set] on a present key keeps the
    key's position and [delete] removes the entry, so the model is an
    association list kept without duplicate keys. *)

Module JsMap.

Abbreviation t V := (list (string * V)) (only parsing).

Section Ops.
Context {V : Type}.

Definition empty : t V := [].

Fixpoint get (k : string) (m : t V) : option V :=
  match m with
  | [] => None
  | (k', v) :: m' => if String.eqb k k' then Some v else get k m'
  end.

Definition has (k : string) (m : t V) : bool :=
  match get k m with Some _ => true | None => false end.

Fixpoint set (k : string) (v : V) (m : t V) : t V :=
  match m with
  | [] => [(k, v)]
  | (k', v') :: m' =>
      if String.eqb k k' then (k, v) :: m' else (k', v') :: set k v m'
  end.

Definition delete (k : string) (m : t V) : t V :=
  filter (λ kv, negb (String.eqb k kv.1)) m.

Definition keys (m : t V) : list string := m.*1.

(** [new Map(m)]: a new object with the same entries in the same order. *)
Definition copy (m : t V) : t V := m.

End Ops.

End JsMap.

(** ** sync-core: [SyncRoom] *)

Module SyncCore.

(** A [SyncSocket] is an object supplied by the transport; the room only
    calls its three members, so the model keeps its identity and leaves its
    behaviour to the [World]. *)
Abbreviation SyncSocket := nat.

(** Address of a [Map<string, Presence>] object. *)
Abbreviation loc := nat.

(** What the room can see thrown: the error of [socket.send] on a transport
    that is not open, and the [TypeError] of [JSON.stringify] on a payload it
    cannot serialize (a [BigInt], a cyclic object). *)
Inductive Error : Type :=
| TransportError (socket : SyncSocket)
| TypeError.

(** [RoomHooks]: every hook is optional.  A hook returning [void] is
    observable only through being called, so its field says whether it was
    supplied and each call is recorded; [onMessage] may return a replacement
    text ([string | void]). Hooks are taken not to throw and not to call back
    into the room. *)
Record RoomHooks : Type := {
  onJoin : bool;
  onLeave : bool;
  onMessage : option (string → string → option string);
  onBroadcast : bool;
  onPresenceUpdate : bool
}.

Record RoomConfig : Type := {
  config_id : string;
  config_hooks : option RoomHooks
}.

Section Room.
(** The presence payload is an arbitrary object for the room, and the text
    of a presence notification is what [JSON.stringify] makes of
    [{type: "presence", sessionId, data}], when it does not throw. *)
Context {Presence : Type}.
Variable JSON_stringify : string → Presence → Result Error string.

(** What the room does to its surroundings, oldest first. *)
Inductive Effect : Type :=
| Send (socket : SyncSocket) (data : string)
| Joined (sessionId : string)
| Left (sessionId : string)
| Broadcasted (from to message : string)
| PresenceUpdated (sessionId : string) (data : Presence).

(** The fields of the class. [presence] is the address of the room's
    [Map] object, because [getAllPresence] hands out another [Map]
    object whose independence from this one is at stake; [sockets] never
    leaves the room and is kept by value. *)
Record SyncRoom : Type := {
  id : string;
  sockets : JsMap.t SyncSocket;
  hooks : option RoomHooks;
  presence : loc
}.

(** The room together with everything it can reach: the store of
    presence [Map] objects, the sockets whose transport is not open, the
    handlers registered on sockets (each closure is determined by the
    [sessionId] it captured) and the record of effects. *)
Record World : Type := {
  this : SyncRoom;
  heap : list (JsMap.t Presence);
  down : list SyncSocket;
  messageHandlers : list (SyncSocket * string);
  closeHandlers : list (SyncSocket * string);
  log : list Effect
}.

Definition with_sockets (f : JsMap.t SyncSocket → JsMap.t SyncSocket)
    (w : World) : World :=
  {| this := {| id := id (this w); sockets := f (sockets (this w));
                hooks := hooks (this w); presence := presence (this w) |};
     heap := heap w; down := down w;
     messageHandlers := messageHandlers w;
     closeHandlers := closeHandlers w; log := log w |}.

Definition with_heap (f : list (JsMap.t Presence) → list (JsMap.t Presence))
    (w : World) : World :=
  {| this := this w; heap := f (heap w); down := down w;
     messageHandlers := messageHandlers w;
     closeHandlers := closeHandlers w; log := log w |}.

Definition emit (e : Effect) (w : World) : World :=
  {| this := this w; heap := heap w; down := down w;
     messageHandlers := messageHandlers w;
     closeHandlers := closeHandlers w; log := log w ++ [e] |}.

Definition add_messageHandler (socket : SyncSocket) (sessionId : string)
    (w : World) : World :=
  {| this := this w; heap := heap w; down := down w;
     messageHandlers := messageHandlers w ++ [(socket, sessionId)];
     closeHandlers := closeHandlers w; log := log w |}.

Definition add_closeHandler (socket : SyncSocket) (sessionId : string)
    (w : World) : World :=
  {| this := this w; heap := heap w; down := down w;
     messageHandlers := messageHandlers w;
     closeHandlers := closeHandlers w ++ [(socket, sessionId)];
     log := log w |}.

(** The transport of a socket stops being open. *)
Definition transport_closes (socket : SyncSocket) (w : World) : World :=
  {| this := this w; heap := heap w; down := socket :: down w;
     messageHandlers := messageHandlers w;
     closeHandlers := closeHandlers w; log := log w |}.

(** *** A small monad for methods: state and exceptions *)

Definition M (A : Type) : Type := World → Result Error A * World.

Definition ret {A} (a : A) : M A := λ w, (Ok a, w).

Definition bind {A B} (m : M A) (k : A → M B) : M B :=
  λ w, match m w with
       | (Ok a, w') => k a w'
       | (Throw e, w') => (Throw e, w')
       end.

Definition effect (f : World → World) : M unit := λ w, (Ok (), f w).

Definition when (b : bool) (m : M unit) : M unit :=
  if b then m else ret ().

Local Notation "m1 ;;; m2" := (bind m1 (λ _, m2))
  (at level 100, right associativity).

(** [this.hooks?.h?.(...)] for a [void] hook [h]. *)
Definition call_hook (h : RoomHooks → bool) (e : Effect) : M unit :=
  λ w, match hooks (this w) with
       | Some hs => when (h hs) (effect (emit e)) w
       | None => (Ok (), w)
       end.

(** [socket.send(data)]: the transport either takes the frame or throws; it
    does not call back into the room. *)
Definition send (socket : SyncSocket) (data : string) : M unit :=
  λ w, if bool_decide (socket ∈ down w)
       then (Throw (TransportError socket), w)
       else (Ok (), emit (Send socket data) w).

(** [new SyncRoom(config)], with every transport open and no handler
    registered yet. *)
Definition new_SyncRoom (config : RoomConfig) : World :=
  {| this := {| id := config_id config; sockets := JsMap.empty;
                hooks := config_hooks config; presence := 0 |};
     heap := [JsMap.empty]; down := [];
     messageHandlers := []; closeHandlers := []; log := [] |}.

(** [broadcast(fromSessionId, message)]: the [for ... of] loop over
    [this.sockets.entries()]. *)
Fixpoint broadcast_loop (entries : list (string * SyncSocket))
    (fromSessionId message : string) : M unit :=
  match entries with
  | [] => ret ()
  | (sessionId, socket) :: rest =>
      if String.eqb sessionId fromSessionId
      then broadcast_loop rest fromSessionId message
      else
        call_hook onBroadcast (Broadcasted fromSessionId sessionId message) ;;;
        send socket message ;;;
        broadcast_loop rest fromSessionId message
  end.

Definition broadcast (fromSessionId message : string) : M unit :=
  λ w, broadcast_loop (sockets (this w)) fromSessionId message w.

(** The closure passed to [socket.onMessage] in [connect]. *)
Definition on_message (sessionId msg : string) : M unit :=
  λ w,
    let maybeTransformed :=
      match hooks (this w) with
      | Some hs =>
          match onMessage hs with
          | Some f => default msg (f sessionId msg)
          | None => msg
          end
      | None => msg
      end in
    broadcast sessionId maybeTransformed w.

(** The closure passed to [socket.onClose] in [connect]. *)
Definition on_close (sessionId : string) : M unit :=
  effect (with_sockets (JsMap.delete sessionId)) ;;;
  (λ w, effect (with_heap (alter (JsMap.delete sessionId) (presence (this w)))) w) ;;;
  call_hook onLeave (Left sessionId).

(** [connect(sessionId, socket)] *)
Definition connect (sessionId : string) (socket : SyncSocket) : M unit :=
  effect (with_sockets (JsMap.set sessionId socket)) ;;;
  call_hook onJoin (Joined sessionId) ;;;
  effect (add_messageHandler socket sessionId) ;;;
  effect (add_closeHandler socket sessionId).

(** [updatePresence(sessionId, data)] *)
Definition updatePresence (sessionId : string) (data : Presence) : M unit :=
  (λ w, effect (with_heap (alter (JsMap.set sessionId data) (presence (this w)))) w) ;;;
  call_hook onPresenceUpdate (PresenceUpdated sessionId data) ;;;
  bind (λ w, (JSON_stringify sessionId data, w))
    (λ message, broadcast sessionId message).

(** [getPresence(sessionId)]; [None] is [undefined]. *)
Definition getPresence (sessionId : string) : M (option Presence) :=
  λ w, (Ok (heap w !! presence (this w) ≫= JsMap.get sessionId), w).

(** [getAllPresence()]: allocates the [Map] it returns. *)
Definition getAllPresence : M loc :=
  λ w, (Ok (length (heap w)),
        with_heap (λ h, h ++ [JsMap.copy (default JsMap.empty
                                  (h !! presence (this w)))]) w).

(** What a holder of a [Map] reference can do to that object. *)
Inductive MapOp : Type :=
| MapSet (key : string) (value : Presence)
| MapDelete (key : string)
| MapClear.

Definition map_op (op : MapOp) (m : JsMap.t Presence) : JsMap.t Presence :=
  match op with
  | MapSet k v => JsMap.set k v m
  | MapDelete k => JsMap.delete k m
  | MapClear => JsMap.empty
  end.

Definition mutate (l : loc) (op : MapOp) : M unit :=
  effect (with_heap (alter (map_op op) l)).

Definition mutate_all (l : loc) (ops : list MapOp) (w : World) : World :=
  foldl (λ w op, (mutate l op w).2) w ops.

(** The transport delivers a frame or a close to a socket: the handlers
    registered on that socket run in registration order, and an exception
    leaves the remaining ones unrun. *)
Fixpoint run_handlers (hs : list (SyncSocket * string)) (socket : SyncSocket)
    (handler : string → M unit) : M unit :=
  match hs with
  | [] => ret ()
  | (socket', sessionId) :: rest =>
      if Nat.eqb socket socket'
      then handler sessionId ;;; run_handlers rest socket handler
      else run_handlers rest socket handler
  end.

Definition socket_message (socket : SyncSocket) (msg : string) : M unit :=
  λ w, run_handlers (messageHandlers w) socket (λ sid, on_message sid msg) w.

Definition socket_close (socket : SyncSocket) : M unit :=
  λ w, run_handlers (closeHandlers w) socket on_close
         (transport_closes socket w).

(** The frames accepted by sockets, read off the effects. *)
Definition sends (es : list Effect) : list (SyncSocket * string) :=
  omap (λ e, match e with Send k d => Some (k, d) | _ => None end) es.

(** The destinations of a broadcast: every entry but the sender's. *)
Definition destinations (fromSessionId : string)
    (entries : JsMap.t SyncSocket) : list (string * SyncSocket) :=
  filter (λ kv, negb (String.eqb kv.1 fromSessionId)) entries.

(** Two worlds that differ at most in the record of effects. *)
Definition only_log (w w' : World) : Prop :=
  this w' = this w ∧ heap w' = heap w ∧ down w' = down w ∧
  messageHandlers w' = messageHandlers w ∧
  closeHandlers w' = closeHandlers w.

(** The room's [presence] field points at an allocated [Map]. *)
Definition well_formed (w : World) : Prop :=
  presence (this w) < length (heap w).

End Room.

Arguments Effect : clear implicits.
Arguments SyncRoom : clear implicits.
Arguments World : clear implicits.
Arguments M : clear implicits.
Arguments MapOp : clear implicits.

End SyncCore.

(** ** sync-whiteboard: the room registry and the persistence loop *)

Module Rooms.

(** Identity of a [RoomState] object and of the [TLSocketRoom] it owns:
    the two are created together and never separated. *)
Abbreviation handle := nat.

(** What the code can see thrown: a file-system error with its [code], the
    [SyntaxError] of [JSON.parse], the [TypeError] of reading [.room] of
    [undefined] or of an engine handed something that is not a snapshot, and
    any other error raised while an engine is being constructed. *)
Inductive Error : Type :=
| ErrnoException (code : string)
| SyntaxError
| TypeError
| EngineError (message : string).

Definition error_code (e : Error) : option string :=
  match e with
  | ErrnoException code => Some code
  | _ => None
  end.

(** What [console.error] is called for. *)
Inductive Complaint : Type :=
| LoadFailed (roomId : string)
| MutexFailed (roomId : string)
| SaveFailed (roomId : string).

Section Registry.
(** A snapshot is opaque to the registry. *)
Context {Snapshot : Type}.

(** The text of a file is what [JSON.stringify] makes of a snapshot, or
    another text that [JSON.parse] accepts ([null], [{}], [42], ...), or
    something [JSON.parse] rejects. *)
Inductive FileText : Type :=
| Json (snapshot : Snapshot)
| JsonOther (text : string)
| Malformed.

(** What [JSON.parse] returns: the snapshot the text was made of, or the
    value of another text. *)
Inductive JsonValue : Type :=
| SnapshotValue (snapshot : Snapshot)
| OtherValue (text : string).

Definition JSON_stringify (snapshot : Snapshot) : FileText := Json snapshot.

Definition JSON_parse (data : FileText) : Result Error JsonValue :=
  match data with
  | Json snapshot => Ok (SnapshotValue snapshot)
  | JsonOther text => Ok (OtherValue text)
  | Malformed => Throw SyntaxError
  end.

(** [new TLSocketRoom({schema, initialSnapshot, ...})] belongs to the
    engine's library: it throws or yields an engine holding a document.
    What it makes of [initialSnapshot], which the registry passes on as it
    was parsed, is the library's business. An engine that calls
    [onDataChange] while it is being constructed makes that callback read
    [roomState] before its initialisation, which is one more way for the
    constructor to throw. *)
Variable new_TLSocketRoom : option JsonValue → Result Error Snapshot.

(** The document engine, as far as the registry uses it: [isClosed()],
    [getCurrentSnapshot()], [close()]. *)
Record TLSocketRoom : Type := {
  closed : bool;
  document : Snapshot
}.

Record RoomState : Type := {
  room : TLSocketRoom;
  id : string;
  needsPersist : bool
}.

(** Effects, oldest first. *)
Inductive Effect : Type :=
| ReadFile (roomId : string)
| Construct (room : handle) (roomId : string) (initialSnapshot : option JsonValue)
| WriteFile (room : handle) (roomId : string) (data : FileText)
| Close (room : handle)
| Delete (roomId : string)
| Settle (caller : nat) (roomId : string) (outcome : Result Error handle)
| ConsoleError (what : Complaint).

(** The module's state. [rooms] maps a room id to the [RoomState] object
    stored at a handle; [mutex] holds the tasks chained on the [mutex]
    promise that have not finished, oldest first, each with the number of
    the call that chained it; [reading] says that the oldest one is
    suspended at [readFile]; [writing] lists the [writeFile] calls still
    in flight. *)
Record State : Type := {
  rooms : JsMap.t handle;
  store : list RoomState;
  mutex : list (nat * string);
  reading : bool;
  writing : list string;
  calls : nat;
  trace : list Effect
}.

Definition init : State :=
  {| rooms := JsMap.empty; store := []; mutex := []; reading := false;
     writing := []; calls := 0; trace := [] |}.

Definition with_rooms (f : JsMap.t handle → JsMap.t handle) (s : State) : State :=
  {| rooms := f (rooms s); store := store s; mutex := mutex s;
     reading := reading s; writing := writing s; calls := calls s;
     trace := trace s |}.

Definition with_store (f : list RoomState → list RoomState) (s : State) : State :=
  {| rooms := rooms s; store := f (store s); mutex := mutex s;
     reading := reading s; writing := writing s; calls := calls s;
     trace := trace s |}.

Definition with_chain (q : list (nat * string)) (r : bool) (s : State) : State :=
  {| rooms := rooms s; store := store s; mutex := q; reading := r;
     writing := writing s; calls := calls s; trace := trace s |}.

Definition with_writing (f : list string → list string) (s : State) : State :=
  {| rooms := rooms s; store := store s; mutex := mutex s;
     reading := reading s; writing := f (writing s); calls := calls s;
     trace := trace s |}.

Definition count_call (s : State) : State :=
  {| rooms := rooms s; store := store s; mutex := mutex s;
     reading := reading s; writing := writing s; calls := S (calls s);
     trace := trace s |}.

Definition emit (e : Effect) (s : State) : State :=
  {| rooms := rooms s; store := store s; mutex := mutex s;
     reading := reading s; writing := writing s; calls := calls s;
     trace := trace s ++ [e] |}.

Definition set_needsPersist (b : bool) (roomState : RoomState) : RoomState :=
  {| room := room roomState; id := id roomState; needsPersist := b |}.

Definition set_document (d : Snapshot) (roomState : RoomState) : RoomState :=
  {| room := {| closed := closed (room roomState); document := d |};
     id := id roomState; needsPersist := needsPersist roomState |}.

Definition close (roomState : RoomState) : RoomState :=
  {| room := {| closed := true; document := document (room roomState) |};
     id := id roomState; needsPersist := needsPersist roomState |}.

(** [readSnapshotIfExists(roomId)], from the point where the [readFile]
    promise settles with [outcome]. The [catch] covers [JSON.parse] too, and
    what [JSON.parse] returns is returned as it is. *)
Definition readSnapshotIfExists (outcome : Result Error FileText)
    : Result Error (option JsonValue) :=
  let catch (error : Error) :=
    if bool_decide (error_code error = Some "ENOENT")
    then Ok None else Throw error in
  match outcome with
  | Ok data =>
      match JSON_parse data with
      | Ok value => Ok (Some value)
      | Throw error => catch error
      end
  | Throw error => catch error
  end.

(** [saveSnapshot(roomId, room)] up to its [await]: the snapshot is taken
    and [writeFile] is called; the function is never awaited by its
    callers. *)
Definition saveSnapshot (roomId : string) (h : handle) (s : State) : State :=
  match store s !! h with
  | Some roomState =>
      emit (WriteFile h roomId (JSON_stringify (document (room roomState))))
        (with_writing (λ w, w ++ [roomId]) s)
  | None => s
  end.

(** The rest of [saveSnapshot]: the [writeFile] promise settles. *)
Definition write_settles (n : nat) (ok : bool) (s : State) : State :=
  match writing s !! n with
  | Some roomId =>
      let s' := with_writing (delete n) s in
      if ok then s' else emit (ConsoleError (SaveFailed roomId)) s'
  | None => s
  end.

(** [rooms.has(roomId) && !rooms.get(roomId).room.isClosed()] *)
Definition room_open (roomId : string) (s : State) : bool :=
  match JsMap.get roomId (rooms s) with
  | Some h =>
      match store s !! h with
      | Some roomState => negb (closed (room roomState))
      | None => false
      end
  | None => false
  end.

(** The tail of [getOrCreateRoom] after [await mutex]. *)
Definition settle (caller : nat) (roomId : string) (err : option Error)
    (s : State) : State :=
  match err with
  | Some e => emit (Settle caller roomId (Throw e)) s
  | None =>
      match JsMap.get roomId (rooms s) with
      | Some h => emit (Settle caller roomId (Ok h)) s
      | None => emit (Settle caller roomId (Throw TypeError)) s
      end
  end.

(** [new TLSocketRoom({...})] followed by [rooms.set(roomId, roomState)];
    when the constructor throws, nothing is stored. *)
Definition construct (roomId : string) (initialSnapshot : option JsonValue)
    (s : State) : Result Error State :=
  match new_TLSocketRoom initialSnapshot with
  | Ok d =>
      let h := length (store s) in
      let roomState :=
        {| room := {| closed := false; document := d |};
           id := roomId; needsPersist := false |} in
      Ok (with_rooms (JsMap.set roomId h)
            (emit (Construct h roomId initialSnapshot)
               (with_store (λ st, st ++ [roomState]) s)))
  | Throw error => Throw error
  end.

(** The promise chain runs its tasks in order. A task whose room exists
    and is open finishes at once, its caller resumes, and the next task
    starts; a task that has to create the room stops the chain at
    [readFile]. No timer or I/O callback runs in between, because all of
    this happens in promise reactions. *)
Fixpoint run_chain (q : list (nat * string)) (s : State) : State :=
  match q with
  | [] => with_chain [] false s
  | (caller, roomId) :: q' =>
      if room_open roomId s
      then run_chain q' (settle caller roomId None s)
      else emit (ReadFile roomId) (with_chain q true s)
  end.

(** [getOrCreateRoom(roomId)] up to [await mutex]. *)
Definition getOrCreateRoom (roomId : string) (s : State) : State :=
  let caller := calls s in
  let s' := count_call s in
  if reading s'
  then with_chain (mutex s' ++ [(caller, roomId)]) true s'
  else run_chain (mutex s' ++ [(caller, roomId)]) s'.

(** The task suspended at [readFile] resumes. Whatever is thrown in it,
    by [readSnapshotIfExists] (which has reported it) or by the engine's
    constructor, reaches the [.catch] of the chain, which reports it and
    hands it to the caller as the value of the task. *)
Definition read_settles (outcome : Result Error FileText) (s : State) : State :=
  if reading s then
    match mutex s with
    | (caller, roomId) :: q' =>
        match readSnapshotIfExists outcome with
        | Ok initialSnapshot =>
            match construct roomId initialSnapshot s with
            | Ok s' => run_chain q' (settle caller roomId None s')
            | Throw error =>
                run_chain q'
                  (settle caller roomId (Some error)
                     (emit (ConsoleError (MutexFailed roomId)) s))
            end
        | Throw error =>
            run_chain q'
              (settle caller roomId (Some error)
                 (emit (ConsoleError (MutexFailed roomId))
                    (emit (ConsoleError (LoadFailed roomId)) s)))
        end
    | [] => s
    end
  else s.

(** [onDataChange()] of the engine at [h], whose document is now [d]. *)
Definition onDataChange (h : handle) (d : Snapshot) (s : State) : State :=
  with_store (alter (λ rs, set_needsPersist true (set_document d rs)) h) s.

(** [onSessionRemoved(room, args)] of the engine at [h]. *)
Definition onSessionRemoved (h : handle) (sessionId : string)
    (numSessionsRemaining : nat) (s : State) : State :=
  match store s !! h with
  | Some roomState =>
      if Nat.eqb numSessionsRemaining 0
      then emit (Close h)
             (with_store (alter close h) (saveSnapshot (id roomState) h s))
      else s
  | None => s
  end.

(** The body of the [for ... of] loop in the [setInterval] callback, for
    one entry of [rooms]. An entry deleted before the loop reaches it is not
    visited. *)
Definition tick_visit (s : State) (entry : string * handle) : State :=
  if JsMap.has entry.1 (rooms s) then
    match store s !! entry.2 with
    | Some roomState =>
        let s1 :=
          if needsPersist roomState
          then saveSnapshot (id roomState) entry.2
                 (with_store (alter (set_needsPersist false) entry.2) s)
          else s in
        if closed (room roomState)
        then emit (Delete (id roomState))
               (with_rooms (JsMap.delete (id roomState)) s1)
        else s1
    | None => s
    end
  else s.

(** The [setInterval] callback. *)
Definition tick (s : State) : State := foldl tick_visit s (rooms s).

(** What can happen, one event-loop turn at a time. *)
Inductive Event : Type :=
| Call (roomId : string)
| ReadSettles (outcome : Result Error FileText)
| Tick
| DataChange (room : handle) (document : Snapshot)
| SessionRemoved (room : handle) (sessionId : string) (numSessionsRemaining : nat)
| WriteSettles (n : nat) (ok : bool).

Definition step (s : State) (e : Event) : State :=
  match e with
  | Call roomId => getOrCreateRoom roomId s
  | ReadSettles outcome => read_settles outcome s
  | Tick => tick s
  | DataChange h d => onDataChange h d s
  | SessionRemoved h sessionId n => onSessionRemoved h sessionId n s
  | WriteSettles n ok => write_settles n ok s
  end.

Definition run (events : list Event) (s : State) : State :=
  foldl step s events.

(** Observations on a trace. *)
Definition constructed (roomId : string) (es : list Effect) : list handle :=
  omap (λ e, match e with
             | Construct h r _ => if String.eqb r roomId then Some h else None
             | _ => None
             end) es.

Definition settled (roomId : string) (es : list Effect)
    : list (Result Error handle) :=
  omap (λ e, match e with
             | Settle _ r o => if String.eqb r roomId then Some o else None
             | _ => None
             end) es.

Definition writes_of (h : handle) (es : list Effect) : list (string * FileText) :=
  omap (λ e, match e with
             | WriteFile h' r d => if Nat.eqb h' h then Some (r, d) else None
             | _ => None
             end) es.

Definition needsPersist_at (h : handle) (s : State) : option bool :=
  needsPersist <$> store s !! h.

(** The number of tasks for a room in a chain. *)
Definition pending (roomId : string) (q : list (nat * string)) : nat :=
  length (filter (λ task, String.eqb task.2 roomId) q).

(** The number of calls for a room among events. *)
Definition is_call (roomId : string) (e : Event) : bool :=
  match e with
  | Call r => String.eqb r roomId
  | _ => false
  end.

Definition called (roomId : string) (events : list Event) : nat :=
  length (filter (is_call roomId) events).

(** Every key of [rooms] occurs once and leads to the [RoomState] object
    that carries it as its [id]. *)
Definition registry_ok (s : State) : Prop :=
  NoDup (JsMap.keys (rooms s)) ∧
  ∀ key h, (key, h) ∈ rooms s →
    ∃ roomState, store s !! h = Some roomState ∧ id roomState = key.

(** What a creation whose read settles with [outcome] comes to: the value
    restored from the file with the document of the new engine, or the
    error that ends the task. *)
Definition restoration (outcome : Result Error FileText)
    : Result Error (option JsonValue * Snapshot) :=
  match readSnapshotIfExists outcome with
  | Ok initialSnapshot =>
      match new_TLSocketRoom initialSnapshot with
      | Ok d => Ok (initialSnapshot, d)
      | Throw error => Throw error
      end
  | Throw error => Throw error
  end.

(** What [console.error] is called for when the restoration fails. *)
Definition complaints (roomId : string) (outcome : Result Error FileText)
    : list Effect :=
  match readSnapshotIfExists outcome with
  | Ok _ => [ConsoleError (MutexFailed roomId)]
  | Throw _ => [ConsoleError (LoadFailed roomId);
                ConsoleError (MutexFailed roomId)]
  end.

(** An event that does not disturb the creation of [roomId] in state [s]:
    if it settles the read of a task for [roomId], the restoration
    succeeds, and it does not take the last session from the engine
    registered for [roomId]. Calls for any room, reads settling in any way
    for other rooms, ticks, document changes, writes settling and other
    session removals are all of this kind. *)
Definition undisturbed (roomId : string) (s : State) (e : Event) : bool :=
  match e with
  | ReadSettles outcome =>
      match mutex s with
      | (_, r) :: _ =>
          if String.eqb r roomId
          then match restoration outcome with Ok _ => true | Throw _ => false end
          else true
      | [] => true
      end
  | SessionRemoved h _ numSessionsRemaining =>
      negb (Nat.eqb numSessionsRemaining 0 &&
            bool_decide (JsMap.get roomId (rooms s) = Some h))
  | _ => true
  end.

Fixpoint undisturbed_run (roomId : string) (s : State) (events : list Event)
    : bool :=
  match events with
  | [] => true
  | e :: events' =>
      undisturbed roomId s e && undisturbed_run roomId (step s e) events'
  end.

(** The registry, the constructions and the answers given to callers tell
    the same story about [roomId]: either nothing has been made of it, or
    one engine was constructed for it, is registered and open, and is what
    every answered caller received. *)
Definition created_once (roomId : string) (s : State) : Prop :=
  match JsMap.get roomId (rooms s) with
  | Some h =>
      room_open roomId s = true ∧
      constructed roomId (trace s) = [h] ∧
      Forall (λ outcome, outcome = Ok h) (settled roomId (trace s))
  | None =>
      constructed roomId (trace s) = [] ∧ settled roomId (trace s) = []
  end.

(** While the oldest task is suspended in its read, its room is not open. *)
Definition chain_waits (s : State) : Prop :=
  reading s = true →
  ∃ caller roomId q,
    mutex s = (caller, roomId) :: q ∧ room_open roomId s = false.

(** From [s] to [s'] the chain is untouched and no room has become open. *)
Definition calm (s s' : State) : Prop :=
  mutex s' = mutex s ∧ reading s' = reading s ∧
  ∀ roomId, room_open roomId s = false → room_open roomId s' = false.

End Registry.

Arguments FileText : clear implicits.
Arguments JsonValue : clear implicits.
Arguments TLSocketRoom : clear implicits.
Arguments RoomState : clear implicits.
Arguments Effect : clear implicits.
Arguments State : clear implicits.
Arguments Event : clear implicits.

End Rooms.

(** ** Concrete rooms and runs used in the examples *)

Module Scenario.

(** A presence payload such as [{cursor: [1, 2]}]. *)
Record Cursor : Type := { cursor : nat * nat }.

Definition stringify (sessionId : string) (data : Cursor)
    : Result SyncCore.Error string :=
  Ok ("presence:" +:+ sessionId).

Definition fresh_room : SyncCore.World Cursor :=
  SyncCore.new_SyncRoom
    {| SyncCore.config_id := "room"; SyncCore.config_hooks := None |}.

(** Sessions A, B and C attached through sockets 1, 2 and 3. *)
Definition abc : SyncCore.World Cursor :=
  (SyncCore.connect "C" 3
     (SyncCore.connect "B" 2 (SyncCore.connect "A" 1 fresh_room).2).2).2.

(** The same room after the transport of B's socket went away without the
    close handler having run yet. *)
Definition abc_b_down : SyncCore.World Cursor :=
  SyncCore.transport_closes 2 abc.

Definition no_such_file : Result Rooms.Error (Rooms.FileText string) :=
  Throw (Rooms.ErrnoException "ENOENT").

(** An engine that starts from the empty document or from the snapshot it
    is given, and throws when it is given anything else. *)
Definition engine (initialSnapshot : option (Rooms.JsonValue string))
    : Result Rooms.Error string :=
  match initialSnapshot with
  | None => Ok ""
  | Some (Rooms.SnapshotValue snapshot) => Ok snapshot
  | Some (Rooms.OtherValue _) => Throw Rooms.TypeError
  end.

(** Three calls for a new room arrive before the first read settles. *)
Definition burst : list (Rooms.Event string) :=
  [Rooms.Call "r"; Rooms.Call "r"; Rooms.Call "r";
   Rooms.ReadSettles no_such_file; Rooms.Tick].

(** A room is created and its document changes. *)
Definition edited : list (Rooms.Event string) :=
  [Rooms.Call "r"; Rooms.ReadSettles no_such_file; Rooms.DataChange 0 "d1"].

(** ... then the tick starts a write, and the write fails. *)
Definition write_failed : list (Rooms.Event string) :=
  edited ++ [Rooms.Tick; Rooms.WriteSettles 0 false].

End Scenario.
(** ** Further observations on the registry's trace *)

Module RoomsTrace.
Import Rooms.

Section Observations.
Context {Snapshot : Type}.

(** The callers that have been answered, in the order of the answers. *)
Definition answered (es : list (Effect Snapshot)) : list nat :=
  omap (λ e, match e with Settle caller _ _ => Some caller | _ => None end) es.

(** How many restoration reads were started, how many engines were
    constructed and how many creations failed. *)
Definition reads_started (es : list (Effect Snapshot)) : nat :=
  length (omap (λ e, match e with ReadFile _ => Some () | _ => None end) es).

Definition constructions (es : list (Effect Snapshot)) : nat :=
  length (omap (λ e, match e with Construct _ _ _ => Some () | _ => None end) es).

Definition failures (es : list (Effect Snapshot)) : nat :=
  length (omap (λ e, match e with
                     | ConsoleError (MutexFailed _) => Some ()
                     | _ => None
                     end) es).

(** The number of calls, for any room, among events. *)
Definition is_a_call (e : Event Snapshot) : bool :=
  match e with Call _ => true | _ => false end.

Definition number_of_calls (events : list (Event Snapshot)) : nat :=
  length (filter is_a_call events).

(** From [s] to [s'] the creation path has not moved: same chain, same
    number of calls, and nothing on the trace that the creation path
    writes. *)
Definition chain_untouched (s s' : State Snapshot) : Prop :=
  mutex s' = mutex s ∧ reading s' = reading s ∧ calls s' = calls s ∧
  answered (trace s') = answered (trace s) ∧
  reads_started (trace s') = reads_started (trace s) ∧
  constructions (trace s') = constructions (trace s) ∧
  failures (trace s') = failures (trace s).

End Observations.

End RoomsTrace.

(** ** sync-whiteboard: the first, synchronous room registry

    [const rooms: Record<string, TLSocketRoom> = {}] with
    [getOrCreateRoom(roomId)] testing [!rooms[roomId]]. *)

Module LegacyRooms.

(** What [rooms[roomId]] can evaluate to: an engine stored by
    [getOrCreateRoom], or what a plain object inherits under that name. *)
Inductive Value : Type :=
| Room (h : nat)
| Inherited (name : string).

(** The own properties of [rooms], and the engines constructed so far (an
    engine is identified by its rank of construction). *)
Record State : Type := {
  rooms : JsMap.t nat;
  engines : nat
}.

Definition init : State := {| rooms := JsMap.empty; engines := 0 |}.

Section Registry.
(** The names a plain object inherits from [Object.prototype]; each of them
    evaluates to a function or an object, hence to a truthy value. *)
Variable inherited : string → bool.

(** [rooms[roomId]]; [None] is [undefined]. *)
Definition lookup (roomId : string) (s : State) : option Value :=
  match JsMap.get roomId (rooms s) with
  | Some h => Some (Room h)
  | None => if inherited roomId then Some (Inherited roomId) else None
  end.

(** [getOrCreateRoom(roomId)] *)
Definition getOrCreateRoom (roomId : string) (s : State) : option Value * State :=
  let s' :=
    match lookup roomId s with
    | Some _ => s
    | None => {| rooms := JsMap.set roomId (engines s) (rooms s);
                 engines := S (engines s) |}
    end in
  (lookup roomId s', s').

Definition calls (roomIds : list string) (s : State) : State :=
  foldl (λ s roomId, (getOrCreateRoom roomId s).2) s roomIds.

End Registry.

End LegacyRooms.

(** ** sync-whiteboard: what the first [/connect/:roomId?] handler makes of
    the request *)

Module Server.

(** [a || b] where [a] is [string | undefined]: the empty string is falsy. *)
Definition or_else (a : option string) (b : string) : string :=
  match a with
  | Some s => if String.eqb s "" then b else s
  | None => b
  end.

Record ConnectParams : Type := {
  roomId : option string
}.

Record ConnectQuerystring : Type := {
  clientId : option string;
  appUser : option string;
  storeId : option string;
  sessionId : option string
}.

(** The four constants the handler computes before it asks for the room. *)
Record Connection : Type := {
  connection_roomId : string;
  connection_sessionId : string;
  connection_appUser : string;
  connection_storeId : string
}.

(** [randomUUID] is what [crypto.randomUUID()] returns if it is called. *)
Definition connection (params : ConnectParams) (query : ConnectQuerystring)
    (randomUUID : string) : Connection :=
  {| connection_roomId := or_else (roomId params) "global-room";
     connection_sessionId :=
       or_else (sessionId query) (or_else (clientId query) randomUUID);
     connection_appUser := or_else (appUser query) "anonymous";
     connection_storeId := or_else (storeId query) "default-store" |}.

End Server.

(** ** More concrete rooms and runs *)

Module MoreScenario.
Import Scenario.

(** The room of [abc] with an [onBroadcast] hook supplied. *)
Definition audited : SyncCore.World Cursor :=
  let hooks :=
    {| SyncCore.onJoin := false; SyncCore.onLeave := false;
       SyncCore.onMessage := None; SyncCore.onBroadcast := true;
       SyncCore.onPresenceUpdate := false |} in
  let room :=
    SyncCore.new_SyncRoom
      {| SyncCore.config_id := "room"; SyncCore.config_hooks := Some hooks |} in
  (SyncCore.connect "C" 3
     (SyncCore.connect "B" 2 (SyncCore.connect "A" 1 room).2).2).2.

Definition audited_b_down : SyncCore.World Cursor :=
  SyncCore.transport_closes 2 audited.

(** The room of [edited] after its last session has left. *)
Definition abandoned : list (Rooms.Event string) :=
  edited ++ [Rooms.SessionRemoved 0 "x" 0].

(** Some of the names that every plain object inherits. *)
Definition prototype_names (name : string) : bool :=
  existsb (String.eqb name)
    ["constructor"; "toString"; "valueOf"; "hasOwnProperty"; "__proto__"].

End MoreScenario.

(** ** Facts about [JsMap] *)

Module JsMapFacts.
Section Facts.
Context {V : Type}.
Implicit Types (k : string) (v : V) (m : JsMap.t V).

Lemma get_set_eq k v m : JsMap.get k (JsMap.set k v m) = Some v.
Proof.
  induction m as [|[k' v'] m IH]; simpl.
  - by rewrite String.eqb_refl.
  - destruct (String.eqb_spec k k') as [->|Hne]; simpl.
    + by rewrite String.eqb_refl.
    + destruct (String.eqb_spec k k'); [done|apply IH].
Qed.

Lemma get_set_ne k k' v m :
  k ≠ k' → JsMap.get k' (JsMap.set k v m) = JsMap.get k' m.
Proof.
  intros Hne. induction m as [|[k0 v0] m IH]; simpl.
  - destruct (String.eqb_spec k' k); [congruence|done].
  - destruct (String.eqb_spec k k0) as [->|Hk]; simpl.
    + destruct (String.eqb_spec k' k0); [congruence|done].
    + destruct (String.eqb_spec k' k0); [done|apply IH].
Qed.

Lemma get_delete_eq k m : JsMap.get k (JsMap.delete k m) = None.
Proof.
  unfold JsMap.delete. induction m as [|[k' v'] m IH]; [done|].
  rewrite filter_cons. simpl.
  destruct (String.eqb_spec k k') as [->|Hne]; simpl; [done|].
  destruct (String.eqb_spec k k'); [done|apply IH].
Qed.

Lemma get_delete_ne k k' m :
  k ≠ k' → JsMap.get k' (JsMap.delete k m) = JsMap.get k' m.
Proof.
  intros Hne. unfold JsMap.delete.
  induction m as [|[k0 v0] m IH]; [done|].
  rewrite filter_cons. simpl.
  destruct (String.eqb_spec k k0) as [->|Hk]; simpl.
  - destruct (String.eqb_spec k' k0); [congruence|apply IH].
  - destruct (String.eqb_spec k' k0); [done|apply IH].
Qed.

Lemma get_delete k k' m :
  JsMap.get k' (JsMap.delete k m) = None ∨
  JsMap.get k' (JsMap.delete k m) = JsMap.get k' m.
Proof.
  destruct (decide (k = k')) as [->|Hne].
  - left. apply get_delete_eq.
  - right. by apply get_delete_ne.
Qed.

Lemma get_Some_elem_of k v m : JsMap.get k m = Some v → (k, v) ∈ m.
Proof.
  induction m as [|[k' v'] m IH]; simpl; [done|].
  destruct (String.eqb_spec k k') as [->|Hne].
  - intros [= ->]. left.
  - intros H. right. by apply IH.
Qed.

Lemma elem_of_get k v m :
  NoDup (JsMap.keys m) → (k, v) ∈ m → JsMap.get k m = Some v.
Proof.
  unfold JsMap.keys. induction m as [|[k' v'] m IH]; simpl.
  - by intros _ ?%elem_of_nil.
  - intros [Hk' Hnd]%NoDup_cons [Heq|Hin]%elem_of_cons.
    + injection Heq as -> ->. by rewrite String.eqb_refl.
    + destruct (String.eqb_spec k k') as [->|Hne]; [|by apply IH].
      exfalso. apply Hk'. apply list_elem_of_fmap. by exists (k', v).
Qed.

Lemma keys_set k v m :
  JsMap.keys (JsMap.set k v m) =
  if JsMap.has k m then JsMap.keys m else JsMap.keys m ++ [k].
Proof.
  unfold JsMap.keys, JsMap.has.
  induction m as [|[k' v'] m IH]; cbn [JsMap.set JsMap.get]; [done|].
  destruct (String.eqb_spec k k') as [->|Hne]; [done|].
  rewrite !fmap_cons, IH. by destruct (JsMap.get k m).
Qed.

Lemma NoDup_keys_set k v m :
  NoDup (JsMap.keys m) → NoDup (JsMap.keys (JsMap.set k v m)).
Proof.
  intros Hnd. rewrite keys_set. unfold JsMap.has.
  destruct (JsMap.get k m) eqn:Hget; [done|].
  apply NoDup_app. split_and!; [done| |apply NoDup_singleton].
  intros x Hx ->%list_elem_of_singleton.
  apply list_elem_of_fmap in Hx as [[k' v'] [-> Hin]].
  apply elem_of_get in Hin; [|done]. simpl in Hget. congruence.
Qed.

Lemma NoDup_keys_delete k m :
  NoDup (JsMap.keys m) → NoDup (JsMap.keys (JsMap.delete k m)).
Proof.
  unfold JsMap.keys, JsMap.delete. intros Hnd.
  eapply sublist_NoDup; [done|].
  apply fmap_sublist, sublist_filter.
Qed.

Lemma elem_of_delete k k' v m :
  (k', v) ∈ JsMap.delete k m ↔ (k', v) ∈ m ∧ k ≠ k'.
Proof.
  unfold JsMap.delete. rewrite list_elem_of_filter. simpl.
  destruct (String.eqb_spec k k') as [->|Hne]; simpl; intuition congruence.
Qed.

End Facts.
End JsMapFacts.

(** ** Properties of [SyncRoom] *)

Module SyncCoreSpec.
Import SyncCore.

Section Facts.
Context {Presence : Type}.
Implicit Types (w : World Presence) (e : Effect Presence).

Lemma only_log_refl w : only_log w w.
Proof. by repeat split. Qed.

Lemma only_log_trans w1 w2 w3 :
  only_log w1 w2 → only_log w2 w3 → only_log w1 w3.
Proof. unfold only_log. intros (?&?&?&?&?) (?&?&?&?&?). split_and!; congruence. Qed.

Lemma only_log_emit e w : only_log w (emit e w).
Proof. by repeat split. Qed.

Lemma sends_app (es1 es2 : list (Effect Presence)) :
  sends (es1 ++ es2) = sends es1 ++ sends es2.
Proof. apply omap_app. Qed.

Lemma call_hook_ok h e w :
  sends [e] = [] →
  ∃ w', call_hook h e w = (Ok (), w') ∧ only_log w w' ∧
        sends (log w') = sends (log w).
Proof.
  intros He. unfold call_hook.
  destruct (hooks (this w)) as [hs|]; [|eauto using only_log_refl].
  destruct (h hs); simpl; [|eauto using only_log_refl].
  eexists; split_and!; [done|apply only_log_emit|].
  simpl. by rewrite sends_app, He, app_nil_r.
Qed.

Lemma send_up k d w :
  k ∉ down w → send k d w = (Ok (), emit (Send k d) w).
Proof. intros Hk. unfold send. by rewrite bool_decide_eq_false_2. Qed.

Lemma send_down k d w :
  k ∈ down w → send k d w = (Throw (TransportError k), w).
Proof. intros Hk. unfold send. by rewrite bool_decide_eq_true_2. Qed.

Lemma broadcast_loop_only_log entries from msg w :
  only_log w (broadcast_loop entries from msg w).2.
Proof.
  revert w. induction entries as [|[sid k] rest IH]; intros w; simpl.
  - apply only_log_refl.
  - destruct (String.eqb sid from); [apply IH|].
    unfold bind at 1.
    destruct (call_hook_ok onBroadcast (Broadcasted from sid msg) w)
      as (w1 & -> & Hw1 & _); [done|].
    unfold bind at 1. unfold send.
    case_bool_decide; simpl; [done|].
    eapply only_log_trans; [|apply IH].
    eapply only_log_trans; [done|apply only_log_emit].
Qed.

Lemma broadcast_loop_app pre post from msg w :
  broadcast_loop (pre ++ post) from msg w =
  bind (broadcast_loop pre from msg) (λ _, broadcast_loop post from msg) w.
Proof.
  revert w. induction pre as [|[sid k] pre IH]; intros w; simpl; [done|].
  destruct (String.eqb sid from); [apply IH|].
  unfold bind.
  destruct (call_hook _ _ w) as [[[]|err] w1]; [|done].
  destruct (send k msg w1) as [[[]|err] w2]; [|done].
  apply IH.
Qed.

Lemma broadcast_loop_all_up entries from msg w :
  (∀ sid k, (sid, k) ∈ entries → sid ≠ from → k ∉ down w) →
  ∃ w', broadcast_loop entries from msg w = (Ok (), w') ∧
        sends (log w') =
        sends (log w) ++ ((λ kv, (kv.2, msg)) <$> destinations from entries).
Proof.
  revert w. induction entries as [|[sid k] rest IH]; intros w Hup; simpl.
  - eexists; split; [done|]. by rewrite app_nil_r.
  - unfold destinations. rewrite filter_cons. simpl.
    destruct (String.eqb_spec sid from) as [->|Hne]; simpl.
    + apply IH. intros sid' k' Hin Hsid'. apply (Hup sid'); [by right|done].
    + unfold bind at 1.
      destruct (call_hook_ok onBroadcast (Broadcasted from sid msg) w)
        as (w1 & -> & Hw1 & Hs1); [done|].
      unfold bind at 1. rewrite send_up; last first.
      { destruct Hw1 as (_&_&->&_). apply (Hup sid); [left|done]. }
      destruct (IH (emit (Send k msg) w1)) as (w' & -> & Hs').
      { intros sid' k' Hin Hsid'. simpl.
        destruct Hw1 as (_&_&->&_). apply (Hup sid'); [by right|done]. }
      eexists; split; [done|]. rewrite Hs'. simpl.
      rewrite sends_app, Hs1. simpl. by rewrite <-app_assoc.
Qed.

Lemma broadcast_loop_failure pre sid k post from msg w :
  sid ≠ from → k ∈ down w →
  (∀ sid' k', (sid', k') ∈ pre → sid' ≠ from → k' ∉ down w) →
  ∃ w', broadcast_loop (pre ++ (sid, k) :: post) from msg w =
          (Throw (TransportError k), w') ∧
        sends (log w') =
        sends (log w) ++ ((λ kv, (kv.2, msg)) <$> destinations from pre) ∧
        only_log w w'.
Proof.
  intros Hne Hdown Hpre. rewrite broadcast_loop_app. unfold bind at 1.
  pose proof (broadcast_loop_only_log pre from msg w) as Hlog.
  destruct (broadcast_loop_all_up pre from msg w Hpre) as (w1 & Hrun & Hs1).
  rewrite Hrun in Hlog |- *. simpl in Hlog. simpl.
  destruct (String.eqb_spec sid from) as [?|_]; [done|].
  unfold bind at 1.
  destruct (call_hook_ok onBroadcast (Broadcasted from sid msg) w1)
    as (w2 & -> & Hw2 & Hs2); [done|].
  unfold bind at 1. rewrite send_down.
  - eexists; split_and!; [done|congruence|by eapply only_log_trans].
  - destruct Hw2 as (_&_&->&_). by destruct Hlog as (_&_&->&_).
Qed.

Variable JSON_stringify : string → Presence → Result Error string.

Lemma updatePresence_state s p w :
  let w' := (updatePresence JSON_stringify s p w).2 in
  this w' = this w ∧
  heap w' = alter (JsMap.set s p) (presence (this w)) (heap w).
Proof.
  unfold updatePresence, bind, effect. simpl.
  set (w1 := with_heap _ w).
  destruct (call_hook_ok onPresenceUpdate (PresenceUpdated s p) w1)
    as (w2 & -> & Hw2 & _); [done|].
  destruct Hw2 as (Ht2 & Hh2 & _).
  destruct (JSON_stringify s p) as [message|error]; [|done].
  destruct (broadcast_loop_only_log (sockets (this w2)) s message w2)
    as (Ht & Hh & _).
  unfold broadcast. split; [by rewrite Ht, Ht2|by rewrite Hh, Hh2].
Qed.

Lemma mutate_all_elsewhere l ops p w :
  l ≠ p →
  this (mutate_all l ops w) = this w ∧
  heap (mutate_all l ops w) !! p = heap w !! p.
Proof.
  intros Hne. revert w. unfold mutate_all.
  induction ops as [|op ops IH]; intros w; cbn [foldl]; [done|].
  destruct (IH (mutate l op w).2) as [-> ->].
  split; [done|]. simpl. by apply list_lookup_alter_ne.
Qed.

(** C10. [broadcast] changes nothing of the room: its fields (the socket
    registry among them), every presence [Map], the transports and the
    registered handlers are the same after the call as before it, whether
    or not the sender is attached and whether or not a send throws; only
    the record of effects grows. *)
Theorem broadcast_leaves_room_unchanged w fromSessionId message :
  let w' := (broadcast fromSessionId message w).2 in
  sockets (this w') = sockets (this w) ∧
  heap w' !! presence (this w') = heap w !! presence (this w) ∧
  only_log w w'.
Proof.
  pose proof (broadcast_loop_only_log (sockets (this w)) fromSessionId
                message w) as Hlog.
  unfold broadcast. simpl. split_and!; [| |done].
  - by destruct Hlog as (-> & _).
  - by destruct Hlog as (-> & -> & _).
Qed.

(** C7. In a room whose attached sessions are A, B and C (in whatever
    order they joined) with the transports of B and C open, a broadcast
    of M from A returns normally and hands M to the socket of B and to
    the socket of C, once each, and to no other socket. *)
Theorem broadcast_reaches_all_but_sender w A B C (a b c : SyncSocket) M :
  sockets (this w) ≡ₚ [(A, a); (B, b); (C, c)] →
  A ≠ B → A ≠ C → b ∉ down w → c ∉ down w →
  ∃ w' new,
    broadcast A M w = (Ok (), w') ∧
    sends (log w') = sends (log w) ++ new ∧
    new ≡ₚ [(b, M); (c, M)].
Proof.
  intros Hperm HAB HAC Hb Hc.
  destruct (broadcast_loop_all_up (sockets (this w)) A M w)
    as (w' & Hrun & Hsends).
  { intros sid k Hin Hsid. rewrite Hperm in Hin.
    repeat (apply elem_of_cons in Hin as [[= -> ->]|Hin]); try done.
    by apply elem_of_nil in Hin. }
  exists w', ((λ kv, (kv.2, M)) <$> destinations A (sockets (this w))).
  split_and!; [done..|].
  unfold destinations. rewrite Hperm.
  rewrite !filter_cons, filter_nil. simpl.
  rewrite String.eqb_refl. simpl.
  destruct (String.eqb_spec B A) as [?|_]; [congruence|].
  destruct (String.eqb_spec C A) as [?|_]; [congruence|].
  done.
Qed.

(** C4, as the code has it. When [send] throws for one destination, the
    exception leaves [broadcast]: the destinations that come before it in
    the registry's order have been sent the message, the failing one and
    those after it have not, and the room is unchanged, so the failing
    session stays attached and its close handler has not run. *)
Theorem broadcast_stops_at_failed_send w pre sessionId socket post
    fromSessionId message :
  sockets (this w) = pre ++ (sessionId, socket) :: post →
  sessionId ≠ fromSessionId →
  socket ∈ down w →
  (∀ sid k, (sid, k) ∈ pre → sid ≠ fromSessionId → k ∉ down w) →
  ∃ w',
    broadcast fromSessionId message w = (Throw (TransportError socket), w') ∧
    sends (log w') =
      sends (log w) ++ ((λ kv, (kv.2, message)) <$> destinations fromSessionId pre) ∧
    sockets (this w') = sockets (this w) ∧
    heap w' = heap w ∧
    closeHandlers w' = closeHandlers w.
Proof.
  intros Hsock Hne Hdown Hpre. unfold broadcast. rewrite Hsock.
  destruct (broadcast_loop_failure pre sessionId socket post fromSessionId
              message w Hne Hdown Hpre) as (w' & -> & Hs & Ht & Hh & _ & _ & Hc).
  exists w'. split_and!; try done. by rewrite Ht, Hsock.
Qed.

(** C3, as the code has it. [connect] for a session id that is already
    attached returns normally: the registry now holds the new socket
    under that id, at the same position, every other session keeps its
    socket, and the handlers registered on the first socket stay
    registered next to those of the new one. *)
Theorem connect_attached_session w sessionId (socket socket' : SyncSocket) :
  JsMap.get sessionId (sockets (this w)) = Some socket →
  ∃ w',
    connect sessionId socket' w = (Ok (), w') ∧
    JsMap.get sessionId (sockets (this w')) = Some socket' ∧
    (∀ sid, sid ≠ sessionId →
       JsMap.get sid (sockets (this w')) = JsMap.get sid (sockets (this w))) ∧
    JsMap.keys (sockets (this w')) = JsMap.keys (sockets (this w)) ∧
    messageHandlers w' = messageHandlers w ++ [(socket', sessionId)] ∧
    closeHandlers w' = closeHandlers w ++ [(socket', sessionId)] ∧
    heap w' = heap w.
Proof.
  intros Hget. unfold connect, bind, effect. simpl.
  set (w1 := with_sockets _ w).
  destruct (call_hook_ok onJoin (Joined sessionId) w1)
    as (w2 & -> & (Ht & Hh & _ & Hm & Hc) & _); [done|].
  simpl. eexists; split; [done|]. simpl. rewrite Ht, Hh, Hm, Hc. simpl.
  split_and!; try done.
  - apply JsMapFacts.get_set_eq.
  - intros sid Hsid. by apply JsMapFacts.get_set_ne.
  - rewrite JsMapFacts.keys_set. unfold JsMap.has. by rewrite Hget.
Qed.

(** C8. After [updatePresence(s, p)], [getPresence(s)] returns [p],
    whatever sockets are attached and even if the notification could not
    be sent; and in a room with no presence yet, updates from two
    different sessions leave [getAllPresence()] returning a map with
    exactly those two entries. *)
Theorem presence_update_then_read :
  (∀ w s p, well_formed w →
     (getPresence s (updatePresence JSON_stringify s p w).2).1 = Ok (Some p)) ∧
  (∀ w s1 p1 s2 p2,
     heap w !! presence (this w) = Some JsMap.empty → s1 ≠ s2 →
     let w2 := (updatePresence JSON_stringify s2 p2
                  (updatePresence JSON_stringify s1 p1 w).2).2 in
     ∃ l w', getAllPresence w2 = (Ok l, w') ∧
             heap w' !! l = Some [(s1, p1); (s2, p2)]).
Proof.
  split.
  - intros w s p Hwf. unfold getPresence. simpl.
    destruct (updatePresence_state s p w) as [-> ->].
    destruct (lookup_lt_is_Some_2 _ _ Hwf) as [m Hm].
    rewrite list_lookup_alter_eq, Hm. simpl.
    by rewrite JsMapFacts.get_set_eq.
  - intros w s1 p1 s2 p2 Hempty Hne w2.
    destruct (updatePresence_state s1 p1 w) as [Ht1 Hh1].
    destruct (updatePresence_state s2 p2
                (updatePresence JSON_stringify s1 p1 w).2) as [Ht2 Hh2].
    fold w2 in Ht2, Hh2.
    assert (heap w2 !! presence (this w2) = Some [(s1, p1); (s2, p2)]) as Hw2.
    { rewrite Hh2, Ht2, Ht1, Hh1, !list_lookup_alter_eq, Hempty. simpl.
      destruct (String.eqb_spec s2 s1); [congruence|done]. }
    unfold getAllPresence. eexists _, _. split; [done|]. simpl.
    rewrite lookup_app_r, Nat.sub_diag by done. simpl.
    by rewrite Hw2.
Qed.

(** C9. [getPresence] returns without changing anything.
    [getAllPresence] changes nothing that existed: it allocates the
    [Map] it returns, with the entries of the room's presence map, and
    whatever is then set, deleted or cleared through the returned
    reference, the room's own presence map keeps its entries. *)
Theorem presence_reads_do_not_modify :
  (∀ w s, (getPresence s w).2 = w) ∧
  (∀ w, well_formed w →
     ∃ l w',
       getAllPresence w = (Ok l, w') ∧
       l ≠ presence (this w) ∧
       this w' = this w ∧ log w' = log w ∧
       (∀ l0, l0 < length (heap w) → heap w' !! l0 = heap w !! l0) ∧
       heap w' !! l = heap w !! presence (this w) ∧
       ∀ ops,
         this (mutate_all l ops w') = this w ∧
         heap (mutate_all l ops w') !! presence (this w) =
           heap w !! presence (this w)).
Proof.
  split; [done|].
  intros w Hwf. unfold well_formed in Hwf.
  destruct (lookup_lt_is_Some_2 _ _ Hwf) as [m Hm].
  unfold getAllPresence. eexists _, _. split; [done|]. simpl.
  split_and!; try done.
  - lia.
  - intros l0 Hl0. by apply lookup_app_l.
  - rewrite lookup_app_r, Nat.sub_diag by done. simpl. by rewrite Hm.
  - intros ops.
    destruct (mutate_all_elsewhere (length (heap w)) ops (presence (this w))
                (with_heap (λ h, h ++ [JsMap.copy (default JsMap.empty
                              (h !! presence (this w)))]) w)) as [-> ->];
      [lia|].
    simpl. split; [done|]. by apply lookup_app_l.
Qed.

End Facts.
End SyncCoreSpec.

Module SyncCoreExamples.
Import SyncCore SyncCoreSpec Scenario.

(** C7 at the room with A, B and C attached. *)
Lemma broadcast_reaches_all_but_sender_witness :
  sockets (this abc) ≡ₚ [("A", 1); ("B", 2); ("C", 3)] ∧
  ∃ w' new,
    broadcast "A" "M" abc = (Ok (), w') ∧
    sends (log w') = sends (log abc) ++ new ∧
    new ≡ₚ [(2, "M"); (3, "M")].
Proof.
  split; [vm_compute; reflexivity|].
  apply (broadcast_reaches_all_but_sender abc "A" "B" "C" 1 2 3 "M");
    [vm_compute; reflexivity|discriminate|discriminate|apply not_elem_of_nil..].
Defined.

(** C4 as stated fails: B's send throws, so C, attached and reachable, is not
    sent the message, and B is still attached afterwards. *)
Lemma failed_send_aborts_broadcast :
  JsMap.keys (sockets (this abc_b_down)) = ["A"; "B"; "C"] ∧
  (3 ∉ down abc_b_down) ∧
  (broadcast "A" "M" abc_b_down).1 = Throw (TransportError 2) ∧
  sends (log (broadcast "A" "M" abc_b_down).2) = [] ∧
  JsMap.get "B" (sockets (this (broadcast "A" "M" abc_b_down).2)) = Some 2.
Proof.
  split_and!; try (vm_compute; reflexivity).
  intros [[=]|[]%elem_of_nil]%elem_of_cons.
Qed.

(** The amended C4 at the same room, broadcasting from C: A is served, B
    fails. *)
Lemma broadcast_stops_at_failed_send_witness :
  sockets (this abc_b_down) = [("A", 1)] ++ ("B", 2) :: [("C", 3)] ∧
  ∃ w',
    broadcast "C" "M" abc_b_down = (Throw (TransportError 2), w') ∧
    sends (log w') =
      sends (log abc_b_down) ++
        ((λ kv, (kv.2, "M")) <$> destinations "C" [("A", 1)]) ∧
    sockets (this w') = sockets (this abc_b_down) ∧
    heap w' = heap abc_b_down ∧
    closeHandlers w' = closeHandlers abc_b_down.
Proof.
  split; [vm_compute; reflexivity|].
  apply (broadcast_stops_at_failed_send abc_b_down [("A", 1)] "B" 2 [("C", 3)]
           "C" "M"); [vm_compute; reflexivity|discriminate|left|].
  intros sid k [[= -> ->]|[]%elem_of_nil]%elem_of_cons _.
  intros [[=]|[]%elem_of_nil]%elem_of_cons.
Defined.

(** C3 as stated fails: the second [connect] for "x" returns normally and
    the registry holds the second socket. *)
Lemma second_connect_is_accepted :
  let w1 := (connect "x" 1 fresh_room).2 in
  JsMap.get "x" (sockets (this w1)) = Some 1 ∧
  (connect "x" 2 w1).1 = Ok () ∧
  JsMap.get "x" (sockets (this (connect "x" 2 w1).2)) = Some 2.
Proof. vm_compute. by split_and!. Qed.

(** The amended C3 at that room. *)
Lemma connect_attached_session_witness :
  let w1 := (connect "x" 1 fresh_room).2 in
  JsMap.get "x" (sockets (this w1)) = Some 1 ∧
  ∃ w',
    connect "x" 2 w1 = (Ok (), w') ∧
    JsMap.get "x" (sockets (this w')) = Some 2 ∧
    (∀ sid, sid ≠ "x" →
       JsMap.get sid (sockets (this w')) = JsMap.get sid (sockets (this w1))) ∧
    JsMap.keys (sockets (this w')) = JsMap.keys (sockets (this w1)) ∧
    messageHandlers w' = messageHandlers w1 ++ [(2, "x")] ∧
    closeHandlers w' = closeHandlers w1 ++ [(2, "x")] ∧
    heap w' = heap w1.
Proof.
  intros w1. split; [vm_compute; reflexivity|].
  apply (connect_attached_session w1 "x" 1 2). vm_compute. reflexivity.
Defined.

(** C8 for a session "s1" that never connected, and for "s1" and "s2". *)
Lemma presence_update_then_read_witness :
  well_formed fresh_room ∧
  (getPresence "s1"
     (updatePresence stringify "s1" {| cursor := (1, 2) |} fresh_room).2).1 =
    Ok (Some {| cursor := (1, 2) |}) ∧
  heap fresh_room !! presence (this fresh_room) = Some JsMap.empty ∧
  "s1" ≠ "s2" ∧
  ∃ l w',
    getAllPresence
      (updatePresence stringify "s2" {| cursor := (3, 4) |}
         (updatePresence stringify "s1" {| cursor := (1, 2) |} fresh_room).2).2 =
      (Ok l, w') ∧
    heap w' !! l =
      Some [("s1", {| cursor := (1, 2) |}); ("s2", {| cursor := (3, 4) |})].
Proof.
  assert (well_formed fresh_room) as Hwf by (vm_compute; lia).
  assert ("s1" ≠ "s2") as Hne by discriminate.
  split_and!; [exact Hwf| |vm_compute; reflexivity|exact Hne|].
  - exact (proj1 (presence_update_then_read stringify) fresh_room "s1"
             {| cursor := (1, 2) |} Hwf).
  - exact (proj2 (presence_update_then_read stringify) fresh_room "s1"
             {| cursor := (1, 2) |} "s2" {| cursor := (3, 4) |} eq_refl Hne).
Defined.

(** C9 at the room with A, B and C attached. *)
Lemma presence_reads_do_not_modify_witness :
  well_formed abc ∧
  ∃ l w',
    getAllPresence abc = (Ok l, w') ∧
    l ≠ presence (this abc) ∧
    this w' = this abc ∧ log w' = log abc ∧
    (∀ l0, l0 < length (heap abc) → heap w' !! l0 = heap abc !! l0) ∧
    heap w' !! l = heap abc !! presence (this abc) ∧
    ∀ ops,
      this (mutate_all l ops w') = this abc ∧
      heap (mutate_all l ops w') !! presence (this abc) =
        heap abc !! presence (this abc).
Proof.
  assert (well_formed abc) as Hwf by (vm_compute; lia).
  split; [exact Hwf|].
  exact (proj2 presence_reads_do_not_modify abc Hwf).
Defined.

(** A frame arriving on A's socket is passed on to B and C. *)
Example frame_from_A_reaches_B_and_C :
  sends (log (socket_message 1 "hello" abc).2) = [(2, "hello"); (3, "hello")].
Proof. vm_compute. reflexivity. Qed.

(** After "x" has been connected twice, the close of the first socket runs
    the handler registered by the first [connect] and detaches "x", whose
    registered socket is by then the second one. *)
Example close_of_replaced_socket_detaches_session :
  let w2 := (connect "x" 2 (connect "x" 1 fresh_room).2).2 in
  JsMap.get "x" (sockets (this w2)) = Some 2 ∧
  JsMap.get "x" (sockets (this (socket_close 1 w2).2)) = None.
Proof. vm_compute. by split. Qed.

End SyncCoreExamples.

(** ** Properties of the room registry *)

Module RoomsSpec.
Import Rooms.

Section Facts.
Context {Snapshot : Type}.
Variable new_TLSocketRoom : option (JsonValue Snapshot) → Result Error Snapshot.
Implicit Types (s : State Snapshot) (e : Event Snapshot)
  (rs : RoomState Snapshot) (h : handle) (es : list (Effect Snapshot)).

Local Abbreviation run := (run new_TLSocketRoom).
Local Abbreviation step := (step new_TLSocketRoom).
Local Abbreviation construct := (construct new_TLSocketRoom).
Local Abbreviation restoration := (restoration new_TLSocketRoom).

Lemma run_snoc events e s : run (events ++ [e]) s = step (run events s) e.
Proof. unfold Rooms.run. by rewrite foldl_app. Qed.

(** Induction over the runs of the module from its initial state. *)
Lemma run_ind (allowed : Event Snapshot → Prop)
    (P : list (Event Snapshot) → State Snapshot → Prop) :
  P [] init →
  (∀ events s e, allowed e → P events s → P (events ++ [e]) (step s e)) →
  ∀ events, Forall allowed events → P events (run events init).
Proof.
  intros Hinit Hstep events. induction events as [|e events IH] using rev_ind.
  - intros _. apply Hinit.
  - intros [Hevents He%Forall_inv]%Forall_app. rewrite run_snoc.
    apply Hstep; [done|]. by apply IH.
Qed.

Lemma writes_of_app h es1 es2 :
  writes_of h (es1 ++ es2) = writes_of h es1 ++ writes_of h es2.
Proof. apply omap_app. Qed.

Lemma constructed_app r es1 es2 :
  constructed r (es1 ++ es2) = constructed r es1 ++ constructed r es2.
Proof. apply omap_app. Qed.

Lemma settled_app r es1 es2 :
  settled r (es1 ++ es2) = settled r es1 ++ settled r es2.
Proof. apply omap_app. Qed.

(** *** The registry and the store agree *)

Lemma elem_of_set {V} k v k0 (v0 : V) (m : JsMap.t V) :
  (k, v) ∈ JsMap.set k0 v0 m → (k, v) = (k0, v0) ∨ (k, v) ∈ m.
Proof.
  induction m as [|[k' v'] m IH]; simpl.
  - intros ?%list_elem_of_singleton. by left.
  - destruct (String.eqb k0 k').
    + intros [?|?]%elem_of_cons; [by left|right; by right].
    + intros [->|Hin]%elem_of_cons; [right; left|].
      destruct (IH Hin); [by left|right; by right].
Qed.

Lemma registry_ok_alter (f : RoomState Snapshot → RoomState Snapshot) h s :
  (∀ rs, id (f rs) = id rs) →
  registry_ok s → registry_ok (with_store (alter f h) s).
Proof.
  intros Hf [Hnd Hreg]. split; [done|]. simpl. intros k h' Hin.
  destruct (Hreg k h' Hin) as (rs & Hrs & Hid).
  destruct (decide (h = h')) as [->|Hne].
  - exists (f rs). rewrite list_lookup_alter_eq, Hrs. by rewrite Hf.
  - exists rs. by rewrite list_lookup_alter_ne.
Qed.

Lemma registry_ok_same s s' :
  rooms s' = rooms s → store s' = store s → registry_ok s → registry_ok s'.
Proof. unfold registry_ok. by intros -> ->. Qed.

Lemma registry_ok_delete k s :
  registry_ok s → registry_ok (with_rooms (JsMap.delete k) s).
Proof.
  intros [Hnd Hreg]. split; simpl.
  - by apply JsMapFacts.NoDup_keys_delete.
  - intros k' h' [Hin _]%JsMapFacts.elem_of_delete. by apply Hreg.
Qed.

Lemma saveSnapshot_frame roomId h s :
  rooms (saveSnapshot roomId h s) = rooms s ∧
  store (saveSnapshot roomId h s) = store s ∧
  mutex (saveSnapshot roomId h s) = mutex s ∧
  reading (saveSnapshot roomId h s) = reading s.
Proof. unfold saveSnapshot. by destruct (store s !! h). Qed.

Lemma saveSnapshot_trace roomId h s rs :
  store s !! h = Some rs →
  trace (saveSnapshot roomId h s) =
  trace s ++ [WriteFile h roomId (JSON_stringify (document (room rs)))].
Proof. unfold saveSnapshot. by intros ->. Qed.

Lemma run_chain_frame q s :
  rooms (run_chain q s) = rooms s ∧ store (run_chain q s) = store s.
Proof.
  revert s. induction q as [|[c r] q IH]; intros s; cbn [run_chain]; [done|].
  destruct (room_open r s); [|done].
  destruct (IH (settle c r None s)) as [-> ->].
  unfold settle. by destruct (JsMap.get r (rooms s)).
Qed.

Lemma construct_Ok r initial s s1 :
  construct r initial s = Ok s1 →
  ∃ d, new_TLSocketRoom initial = Ok d ∧
       rooms s1 = JsMap.set r (length (store s)) (rooms s) ∧
       store s1 = store s ++ [{| room := {| closed := false; document := d |};
                                 id := r; needsPersist := false |}] ∧
       trace s1 = trace s ++ [Construct (length (store s)) r initial] ∧
       mutex s1 = mutex s ∧ reading s1 = reading s ∧ calls s1 = calls s ∧
       writing s1 = writing s.
Proof.
  unfold Rooms.construct. destruct (new_TLSocketRoom initial) as [d|]; [|done].
  intros [= <-]. by exists d.
Qed.

Lemma construct_Throw r initial s error :
  construct r initial s = Throw error ↔ new_TLSocketRoom initial = Throw error.
Proof.
  unfold Rooms.construct. destruct (new_TLSocketRoom initial); [done|].
  split; congruence.
Qed.

Lemma settle_frame c r err s :
  rooms (settle c r err s) = rooms s ∧ store (settle c r err s) = store s ∧
  mutex (settle c r err s) = mutex s ∧ reading (settle c r err s) = reading s.
Proof. unfold settle. destruct err; [done|]. by destruct (JsMap.get r (rooms s)). Qed.

Lemma construct_registry_ok r initial s s1 :
  construct r initial s = Ok s1 → registry_ok s → registry_ok s1.
Proof.
  intros (d & _ & Hrooms & Hstore & _)%construct_Ok [Hnd Hreg].
  unfold registry_ok. rewrite Hrooms, Hstore. split.
  - by apply JsMapFacts.NoDup_keys_set.
  - intros k h' [[= -> ->]|Hin]%elem_of_set.
    + eexists. by rewrite lookup_app_r, Nat.sub_diag.
    + destruct (Hreg k h' Hin) as (rs & Hrs & Hid).
      exists rs. split; [|done]. by apply lookup_app_l_Some.
Qed.

Lemma tick_visit_registry_ok s entry :
  registry_ok s → registry_ok (tick_visit s entry).
Proof.
  intros Hok. unfold tick_visit.
  destruct (JsMap.has _ _); [|done].
  destruct (store s !! entry.2) as [rs|]; [|done].
  assert (registry_ok (if needsPersist rs
            then saveSnapshot (id rs) entry.2
                   (with_store (alter (set_needsPersist false) entry.2) s)
            else s)) as Hok1.
  { destruct (needsPersist rs); [|done].
    eapply registry_ok_same; [apply saveSnapshot_frame..|].
    by apply registry_ok_alter. }
  destruct (closed (room rs)); [|done].
  eapply (registry_ok_same (with_rooms _ _)); [done..|].
  by apply registry_ok_delete.
Qed.

Lemma step_registry_ok s e : registry_ok s → registry_ok (step s e).
Proof.
  intros Hok. destruct e as [r|outcome| |h d|h sid n|n ok]; simpl.
  - unfold getOrCreateRoom. destruct (reading _); [done|].
    eapply registry_ok_same; [apply run_chain_frame..|done].
  - unfold read_settles. destruct (reading s); [|done].
    destruct (mutex s) as [|[c r] q]; [done|].
    destruct (readSnapshotIfExists outcome) as [initial|err].
    + destruct (construct r initial s) as [s1|err] eqn:Hs1.
      * eapply registry_ok_same; [apply run_chain_frame..|].
        eapply registry_ok_same; [apply settle_frame..|].
        by eapply construct_registry_ok.
      * eapply registry_ok_same; [apply run_chain_frame..|]. done.
    + eapply registry_ok_same; [apply run_chain_frame..|]. done.
  - unfold tick. generalize (rooms s) at 1. intros entries.
    revert s Hok. induction entries as [|entry entries IH]; intros s Hok; [done|].
    simpl. by apply IH, tick_visit_registry_ok.
  - by apply registry_ok_alter.
  - unfold onSessionRemoved. destruct (store s !! h) as [rs|]; [|done].
    destruct (n =? 0); [|done].
    eapply (registry_ok_same (with_store (alter close h) (saveSnapshot (id rs) h s)));
      [done..|].
    apply registry_ok_alter; [done|].
    eapply registry_ok_same; [apply saveSnapshot_frame..|done].
  - unfold write_settles. destruct (writing s !! n); [|done].
    by destruct ok.
Qed.

Lemma registry_ok_run events : registry_ok (run events init).
Proof.
  apply (run_ind (λ _, True) (λ _ s, registry_ok s)).
  - split; [constructor|]. by intros k h ?%elem_of_nil.
  - intros ? s e _. apply step_registry_ok.
  - by apply Forall_true.
Qed.

(** *** One turn of the persistence loop *)

Ltac tick_cases s entry rs Hrs :=
  unfold tick_visit;
  destruct (JsMap.has entry.1 (rooms s)) eqn:?; [|try done];
  destruct (store s !! entry.2) as [rs|] eqn:Hrs; [|try done];
  unfold saveSnapshot; simpl;
  destruct (needsPersist rs) eqn:?, (closed (room rs)) eqn:?; simpl;
  rewrite ?list_lookup_alter_eq, ?Hrs; simpl.

Lemma tick_visit_other s entry h :
  entry.2 ≠ h →
  writes_of h (trace (tick_visit s entry)) = writes_of h (trace s) ∧
  store (tick_visit s entry) !! h = store s !! h.
Proof.
  intros Hne. apply Nat.eqb_neq in Hne as Hneb.
  tick_cases s entry rs Hrs;
    rewrite ?writes_of_app; simpl; rewrite ?Hneb, ?app_nil_r;
    rewrite ?list_lookup_alter_ne by done; done.
Qed.

Lemma tick_visit_id s entry h :
  id <$> store (tick_visit s entry) !! h = id <$> store s !! h.
Proof.
  tick_cases s entry rs Hrs; try done;
    (destruct (decide (entry.2 = h)) as [<-|Hne];
     [by rewrite list_lookup_alter_eq, Hrs
     |by rewrite list_lookup_alter_ne]).
Qed.

Lemma tick_visit_get s entry k :
  id <$> store s !! entry.2 ≠ Some k →
  JsMap.get k (rooms (tick_visit s entry)) = JsMap.get k (rooms s).
Proof.
  intros Hk. tick_cases s entry rs Hrs; try done;
    (apply JsMapFacts.get_delete_ne; intros <-; by apply Hk).
Qed.

Lemma tick_visit_clean s entry h :
  needsPersist_at h s = Some false →
  writes_of h (trace (tick_visit s entry)) = writes_of h (trace s) ∧
  needsPersist_at h (tick_visit s entry) = Some false.
Proof.
  intros Hclean. destruct (decide (entry.2 = h)) as [<-|Hne].
  - unfold needsPersist_at in *.
    tick_cases s entry rs Hrs; try done;
      simpl in Hclean; try congruence;
      rewrite ?writes_of_app, ?Hrs; simpl; by rewrite ?app_nil_r.
  - destruct (tick_visit_other s entry h Hne) as [-> Hst].
    unfold needsPersist_at. by rewrite Hst.
Qed.

Lemma tick_visit_dirty s k h rs :
  JsMap.has k (rooms s) = true → store s !! h = Some rs →
  needsPersist rs = true →
  writes_of h (trace (tick_visit s (k, h))) =
    writes_of h (trace s) ++ [(id rs, JSON_stringify (document (room rs)))] ∧
  needsPersist_at h (tick_visit s (k, h)) = Some false.
Proof.
  intros Hhas Hrs Hdirty. unfold tick_visit, needsPersist_at. simpl.
  rewrite Hhas, Hrs, Hdirty. unfold saveSnapshot. simpl.
  rewrite list_lookup_alter_eq, Hrs. simpl.
  destruct (closed (room rs)); simpl;
    rewrite ?writes_of_app; simpl;
    rewrite Nat.eqb_refl, list_lookup_alter_eq, Hrs, ?app_nil_r; done.
Qed.

Lemma tick_fold_other entries s h :
  (∀ entry, entry ∈ entries → entry.2 ≠ h) →
  writes_of h (trace (foldl tick_visit s entries)) = writes_of h (trace s) ∧
  store (foldl tick_visit s entries) !! h = store s !! h.
Proof.
  revert s. induction entries as [|entry entries IH]; intros s Hall; [done|].
  simpl. destruct (IH (tick_visit s entry)) as [-> ->].
  { intros entry' Hin. apply Hall. by right. }
  apply tick_visit_other, Hall. left.
Qed.

Lemma tick_fold_get entries s k :
  (∀ entry, entry ∈ entries → id <$> store s !! entry.2 ≠ Some k) →
  JsMap.get k (rooms (foldl tick_visit s entries)) = JsMap.get k (rooms s).
Proof.
  revert s. induction entries as [|entry entries IH]; intros s Hall; [done|].
  simpl. rewrite IH.
  - apply tick_visit_get, Hall. left.
  - intros entry' Hin. rewrite tick_visit_id. apply Hall. by right.
Qed.

Lemma tick_fold_clean entries s h :
  needsPersist_at h s = Some false →
  writes_of h (trace (foldl tick_visit s entries)) = writes_of h (trace s) ∧
  needsPersist_at h (foldl tick_visit s entries) = Some false.
Proof.
  revert s. induction entries as [|entry entries IH]; intros s Hclean; [done|].
  simpl. destruct (tick_visit_clean s entry h Hclean) as [Hw Hc].
  destruct (IH _ Hc) as [-> ->]. by rewrite Hw.
Qed.

Lemma tick_dirty s k h rs :
  registry_ok s →
  JsMap.get k (rooms s) = Some h → store s !! h = Some rs →
  needsPersist rs = true →
  writes_of h (trace (tick s)) =
    writes_of h (trace s) ++ [(k, JSON_stringify (document (room rs)))] ∧
  needsPersist_at h (tick s) = Some false.
Proof.
  intros [Hnd Hreg] Hget Hrs Hdirty.
  pose proof (JsMapFacts.get_Some_elem_of _ _ _ Hget) as Hin.
  destruct (Hreg k h Hin) as (rs' & Hrs' & Hid).
  assert (rs' = rs) as -> by congruence.
  apply list_elem_of_split in Hin as (pre & post & Hsplit).
  assert (∀ entry, entry ∈ pre → entry.1 ≠ k) as Hpre.
  { intros [k' h'] Hin'. simpl. intros Heq. subst k'.
    unfold JsMap.keys in Hnd. rewrite Hsplit, fmap_app in Hnd.
    apply NoDup_app in Hnd as (_ & Hdisj & _).
    apply (Hdisj k).
    - apply list_elem_of_fmap. by exists (k, h').
    - simpl. left. }
  assert (∀ entry, entry ∈ pre → id <$> store s !! entry.2 = Some entry.1) as Hids.
  { intros [k' h'] Hin'. simpl.
    destruct (Hreg k' h') as (rs' & Hrs'' & Hid').
    { rewrite Hsplit. apply elem_of_app. by left. }
    rewrite Hrs''. simpl. by rewrite Hid'. }
  unfold tick. rewrite Hsplit, foldl_app. simpl.
  destruct (tick_fold_other pre s h) as [Hw1 Hs1].
  { intros entry Hin' <-. apply (Hpre entry Hin').
    specialize (Hids entry Hin'). rewrite Hrs in Hids. simpl in Hids. congruence. }
  pose proof (tick_fold_get pre s k) as Hg1.
  rewrite Hget in Hg1.
  destruct (tick_visit_dirty (foldl tick_visit s pre) k h rs) as [Hw2 Hc2].
  { unfold JsMap.has. rewrite Hg1; [done|].
    intros entry Hin'. rewrite (Hids entry Hin'). intros [= ?].
    by apply (Hpre entry Hin'). }
  { by rewrite Hs1. }
  { done. }
  destruct (tick_fold_clean post _ h Hc2) as [-> ->].
  by rewrite Hw2, Hw1, Hid.
Qed.

(** C5. When the engine reports that no session remains, the callback takes
    the snapshot of the still open engine and starts exactly one write of it
    for the room's id, and only then closes the engine; the registry itself
    is not touched. *)
Theorem last_session_saves_then_closes s h rs sessionId :
  store s !! h = Some rs →
  let s' := step s (SessionRemoved h sessionId 0) in
  trace s' =
    trace s ++ [WriteFile h (id rs) (JSON_stringify (document (room rs)));
                Close h] ∧
  writing s' = writing s ++ [id rs] ∧
  store s' !! h = Some (close rs) ∧
  rooms s' = rooms s.
Proof.
  intros Hrs. simpl. unfold onSessionRemoved, saveSnapshot. rewrite Hrs. simpl.
  rewrite list_lookup_alter_eq, Hrs, <-app_assoc. done.
Qed.

(** C2, as the code has it. For a room of the registry that is marked dirty,
    the next tick clears the flag and starts exactly one write of the room's
    current snapshot. However that write ends, the flag stays cleared: a
    failure is reported on the console and the following tick starts no
    write for the room. A tick starts no write for a room that is not
    dirty. *)
Theorem tick_flushes_dirty_room_once events roomId h rs :
  let s := run events init in
  JsMap.get roomId (rooms s) = Some h →
  store s !! h = Some rs →
  (needsPersist rs = true →
     let s1 := tick s in
     needsPersist_at h s1 = Some false ∧
     writes_of h (trace s1) =
       writes_of h (trace s) ++ [(roomId, JSON_stringify (document (room rs)))] ∧
     (∀ n r, writing s1 !! n = Some r →
        trace (write_settles n false s1) =
          trace s1 ++ [ConsoleError (SaveFailed r)]) ∧
     (∀ n ok,
        let s2 := write_settles n ok s1 in
        needsPersist_at h s2 = Some false ∧
        writes_of h (trace (tick s2)) = writes_of h (trace s2))) ∧
  (needsPersist rs = false →
     writes_of h (trace (tick s)) = writes_of h (trace s)).
Proof.
  intros s Hget Hrs. split.
  - intros Hdirty s1.
    destruct (tick_dirty s roomId h rs (registry_ok_run events) Hget Hrs Hdirty)
      as [Hw Hc].
    split_and!; [done..| |].
    + intros n r Hn. unfold write_settles. by rewrite Hn.
    + intros n ok s2.
      assert (needsPersist_at h s2 = Some false) as Hc2.
      { unfold s2, write_settles. destruct (writing s1 !! n); [|done].
        by destruct ok. }
      split; [done|]. by apply tick_fold_clean.
  - intros Hclean. apply tick_fold_clean. unfold needsPersist_at.
    by rewrite Hrs, <-Hclean.
Qed.

(** *** Nothing but a construction opens a room *)

Lemma room_open_shrink r s s' :
  (JsMap.get r (rooms s') = None ∨ JsMap.get r (rooms s') = JsMap.get r (rooms s)) →
  (∀ h rs', store s' !! h = Some rs' →
     closed (room rs') = true ∨
     ∃ rs, store s !! h = Some rs ∧ closed (room rs') = closed (room rs)) →
  room_open r s = false → room_open r s' = false.
Proof.
  intros Hrooms Hstore. unfold room_open.
  destruct (JsMap.get r (rooms s')) as [h|]; [|done].
  destruct Hrooms as [?|<-]; [done|].
  destruct (store s' !! h) as [rs'|] eqn:Hrs'; [|done].
  destruct (Hstore h rs' Hrs') as [->|(rs & -> & ->)]; done.
Qed.

Lemma lookup_alter_Some (f : RoomState Snapshot → RoomState Snapshot) h0
    (st : list (RoomState Snapshot)) h rs' :
  alter f h0 st !! h = Some rs' →
  st !! h = Some rs' ∨ ∃ rs, h = h0 ∧ st !! h = Some rs ∧ rs' = f rs.
Proof.
  destruct (decide (h0 = h)) as [->|Hne].
  - rewrite list_lookup_alter_eq. destruct (st !! h) as [rs|]; [|done].
    intros [= <-]. right. by exists rs.
  - rewrite list_lookup_alter_ne by done. by left.
Qed.

Lemma calm_refl s : calm s s.
Proof. by repeat split. Qed.

Lemma calm_trans s1 s2 s3 : calm s1 s2 → calm s2 s3 → calm s1 s3.
Proof.
  intros (Hm1 & Hr1 & Ho1) (Hm2 & Hr2 & Ho2).
  split_and!; [congruence..|]. auto.
Qed.

Lemma calm_chain_waits s s' : calm s s' → chain_waits s → chain_waits s'.
Proof.
  intros (Hm & Hr & Ho) Hw. unfold chain_waits. rewrite Hm, Hr.
  intros Hreading. destruct (Hw Hreading) as (c & r & q & ? & ?).
  exists c, r, q. auto.
Qed.

Lemma calm_alter (f : RoomState Snapshot → RoomState Snapshot) h s :
  (∀ rs, closed (room (f rs)) = true ∨ closed (room (f rs)) = closed (room rs)) →
  calm s (with_store (alter f h) s).
Proof.
  intros Hf. split_and!; [done..|]. intros r. apply room_open_shrink.
  - by right.
  - simpl. intros h' rs' [?|(rs & -> & Hrs & ->)]%lookup_alter_Some.
    + right. by exists rs'.
    + destruct (Hf rs) as [?|?]; [by left|right; by exists rs].
Qed.

Lemma calm_same s s' :
  rooms s' = rooms s → store s' = store s →
  mutex s' = mutex s → reading s' = reading s → calm s s'.
Proof.
  intros Hrooms Hstore Hm Hr. split_and!; [done..|].
  intros r. unfold room_open. by rewrite Hrooms, Hstore.
Qed.

Lemma calm_delete k s : calm s (with_rooms (JsMap.delete k) s).
Proof.
  split_and!; [done..|]. intros r. apply room_open_shrink.
  - apply JsMapFacts.get_delete.
  - intros h rs' Hrs'. right. by exists rs'.
Qed.

Lemma tick_visit_calm s entry : calm s (tick_visit s entry).
Proof.
  unfold tick_visit.
  destruct (JsMap.has _ _); [|apply calm_refl].
  destruct (store s !! entry.2) as [rs|]; [|apply calm_refl].
  assert (calm s (if needsPersist rs
            then saveSnapshot (id rs) entry.2
                   (with_store (alter (set_needsPersist false) entry.2) s)
            else s)) as Hcalm1.
  { destruct (needsPersist rs); [|apply calm_refl].
    eapply calm_trans; [apply (calm_alter (set_needsPersist false)); by right|].
    apply calm_same; apply saveSnapshot_frame. }
  destruct (closed (room rs)); [|done].
  eapply calm_trans; [done|].
  eapply calm_trans; [apply calm_delete|]. by apply calm_same.
Qed.

Lemma tick_calm s : calm s (tick s).
Proof.
  unfold tick. generalize (rooms s). intros entries. revert s.
  induction entries as [|entry entries IH]; intros s; [apply calm_refl|].
  simpl. eapply calm_trans; [apply tick_visit_calm|apply IH].
Qed.

Lemma run_chain_waits q s : chain_waits (run_chain q s).
Proof.
  revert s. induction q as [|[c r] q IH]; intros s; cbn [run_chain].
  - by intros ?.
  - destruct (room_open r s) eqn:Hopen; [apply IH|].
    intros _. by exists c, r, q.
Qed.

Lemma step_chain_waits s e : chain_waits s → chain_waits (step s e).
Proof.
  intros Hw. destruct e as [r|outcome| |h d|h sid n|n ok]; simpl.
  - unfold getOrCreateRoom. simpl.
    destruct (reading s) eqn:Hreading; [|apply run_chain_waits].
    destruct (Hw Hreading) as (c & r' & q & Hm & Hopen).
    intros _. exists c, r', (q ++ [(calls s, r)]). simpl. by rewrite Hm.
  - unfold read_settles. destruct (reading s); [|done].
    destruct (mutex s) as [|[c r] q]; [done|].
    destruct (readSnapshotIfExists outcome) as [initial|];
      [destruct (construct r initial s)|]; apply run_chain_waits.
  - eapply calm_chain_waits; [apply tick_calm|done].
  - eapply calm_chain_waits; [|done]. apply calm_alter. by right.
  - eapply calm_chain_waits; [|done]. unfold onSessionRemoved.
    destruct (store s !! h) as [rs|]; [|apply calm_refl].
    destruct (n =? 0); [|apply calm_refl].
    eapply calm_trans; [apply calm_same; apply saveSnapshot_frame|].
    eapply calm_trans; [apply (calm_alter close); by left|].
    by apply calm_same.
  - eapply calm_chain_waits; [|done]. unfold write_settles.
    destruct (writing s !! n); [|apply calm_refl].
    destruct ok; by apply calm_same.
Qed.

Lemma chain_waits_run events : chain_waits (run events init).
Proof.
  apply (run_ind (λ _, True) (λ _ s, chain_waits s)).
  - by intros ?.
  - intros ? s e _. apply step_chain_waits.
  - by apply Forall_true.
Qed.

Lemma settle_trace c r err s :
  ∃ outcome, trace (settle c r err s) = trace s ++ [Settle c r outcome].
Proof.
  unfold settle. destruct err; [by eexists|].
  destruct (JsMap.get r (rooms s)); by eexists.
Qed.

Lemma run_chain_trace q s :
  ∃ rest, trace (run_chain q s) = trace s ++ rest ∧
          ∀ r, constructed r rest = [].
Proof.
  revert s. induction q as [|[c r] q IH]; intros s; cbn [run_chain].
  - exists []. by rewrite app_nil_r.
  - destruct (room_open r s).
    + destruct (IH (settle c r None s)) as (rest & -> & Hrest).
      destruct (settle_trace c r None s) as (o & ->).
      exists (Settle c r o :: rest). split; [by rewrite <-app_assoc|].
      intros r'. apply Hrest.
    + by exists [ReadFile r].
Qed.

Lemma room_open_same r s s' :
  rooms s' = rooms s → store s' = store s → room_open r s' = room_open r s.
Proof. unfold room_open. by intros -> ->. Qed.

Lemma restoration_Ok outcome initial d :
  restoration outcome = Ok (initial, d) ↔
  readSnapshotIfExists outcome = Ok initial ∧ new_TLSocketRoom initial = Ok d.
Proof.
  unfold Rooms.restoration.
  destruct (readSnapshotIfExists outcome) as [initial'|]; [|split; [done|by intros []]].
  destruct (new_TLSocketRoom initial') as [d'|] eqn:Hnew.
  - split; [by intros [= <- <-]|]. intros [[= <-] ?]. congruence.
  - split; [done|]. intros [[= <-] ?]. congruence.
Qed.

(** The task whose read settles fails: the chain goes on from a state that
    differs from the one before only by the reports and the answer. *)
Lemma read_settles_fails s c r q outcome error :
  reading s = true → mutex s = (c, r) :: q →
  restoration outcome = Throw error →
  ∃ s1, step s (ReadSettles outcome) = run_chain q s1 ∧
        rooms s1 = rooms s ∧ store s1 = store s ∧ calls s1 = calls s ∧
        trace s1 = trace s ++ complaints r outcome ++ [Settle c r (Throw error)].
Proof.
  intros Hreading Hmutex Hfail. simpl. unfold read_settles.
  rewrite Hreading, Hmutex. unfold Rooms.restoration, complaints in *.
  destruct (readSnapshotIfExists outcome) as [initial|err].
  - unfold Rooms.construct.
    destruct (new_TLSocketRoom initial) as [d|err]; [done|].
    injection Hfail as ->. eexists. split; [done|]. simpl.
    by rewrite <-app_assoc.
  - injection Hfail as ->. eexists. split; [done|]. simpl.
    by rewrite <-!app_assoc.
Qed.

(** The task whose read settles succeeds: the engine is constructed and
    registered, the caller is answered with it, and the chain goes on. *)
Lemma read_settles_succeeds s c r q outcome initial d :
  reading s = true → mutex s = (c, r) :: q →
  restoration outcome = Ok (initial, d) →
  let h := length (store s) in
  ∃ s1, step s (ReadSettles outcome) = run_chain q s1 ∧
        rooms s1 = JsMap.set r h (rooms s) ∧
        store s1 = store s ++ [{| room := {| closed := false; document := d |};
                                  id := r; needsPersist := false |}] ∧
        calls s1 = calls s ∧
        trace s1 = trace s ++ [Construct h r initial; Settle c r (Ok h)].
Proof.
  intros Hreading Hmutex [Hread Hnew]%restoration_Ok h. simpl.
  unfold read_settles. rewrite Hreading, Hmutex, Hread.
  unfold Rooms.construct. rewrite Hnew.
  eexists. split; [done|]. unfold settle. simpl.
  rewrite JsMapFacts.get_set_eq. simpl. by rewrite <-app_assoc.
Qed.

(** Tasks for open rooms at the front of the chain are answered at once. *)
Lemma run_chain_open_prefix q1 q2 s :
  Forall (λ task, room_open task.2 s = true) q1 →
  ∃ s1 answers,
    run_chain (q1 ++ q2) s = run_chain q2 s1 ∧
    rooms s1 = rooms s ∧ store s1 = store s ∧ calls s1 = calls s ∧
    trace s1 = trace s ++ answers ∧ ∀ r, constructed r answers = [].
Proof.
  revert s. induction q1 as [|[c r] q1 IH]; intros s Hopen.
  - exists s, []. by rewrite app_nil_r.
  - apply Forall_cons in Hopen as [Hr Hopen]. simpl in Hr.
    cbn [app run_chain]. rewrite Hr.
    destruct (settle_frame c r None s) as (Hrooms & Hstore & _).
    destruct (settle_trace c r None s) as (o & Htrace).
    destruct (IH (settle c r None s)) as (s1 & answers & -> & H1 & H2 & H3 & H4 & H5).
    { eapply Forall_impl; [done|]. intros task. simpl.
      by rewrite (room_open_same _ s (settle c r None s)). }
    exists s1, (Settle c r o :: answers). split_and!; [done|congruence..| | |done].
    + rewrite H3. unfold settle. by destruct (JsMap.get r (rooms s)).
    + rewrite H4, Htrace. by rewrite <-app_assoc.
Qed.

(** *** Counting calls and queued tasks *)

Lemma pending_cons r c r0 q :
  pending r ((c, r0) :: q) = (if String.eqb r0 r then 1 else 0) + pending r q.
Proof.
  unfold pending. rewrite filter_cons. simpl. by destruct (String.eqb r0 r).
Qed.

Lemma pending_app r q1 q2 : pending r (q1 ++ q2) = pending r q1 + pending r q2.
Proof. unfold pending. by rewrite filter_app, length_app. Qed.

Lemma called_snoc r events e :
  called r (events ++ [e]) = called r events + (if is_call r e then 1 else 0).
Proof.
  unfold called. rewrite filter_app, length_app, filter_cons, filter_nil.
  by destruct (is_call r e).
Qed.

End Facts.
End RoomsSpec.

Module RoomsExamples.
Import Rooms RoomsSpec Scenario.

(** C2 as stated fails: after the write started by a tick has failed, the
    room is no longer marked dirty and the next tick starts no write. *)
Lemma failed_write_is_not_retried :
  let s := run engine write_failed init in
  trace s = [ReadFile "r"; Construct 0 "r" None; Settle 0 "r" (Ok 0);
             WriteFile 0 "r" (Json "d1"); ConsoleError (SaveFailed "r")] ∧
  needsPersist_at 0 s = Some false ∧
  trace (tick s) = trace s.
Proof. vm_compute. by split_and!. Qed.

(** The amended C2 at the room whose document has just changed. *)
Lemma tick_flushes_dirty_room_once_witness :
  let s := run engine edited init in
  let rs := {| room := {| closed := false; document := "d1" |};
               id := "r"; needsPersist := true |} in
  JsMap.get "r" (rooms s) = Some 0 ∧
  store s !! 0 = Some rs ∧
  needsPersist rs = true ∧
  let s1 := tick s in
  needsPersist_at 0 s1 = Some false ∧
  writes_of 0 (trace s1) = writes_of 0 (trace s) ++ [("r", Json "d1")] ∧
  ∀ n ok,
    let s2 := write_settles n ok s1 in
    needsPersist_at 0 s2 = Some false ∧
    writes_of 0 (trace (tick s2)) = writes_of 0 (trace s2).
Proof.
  intros s rs.
  assert (JsMap.get "r" (rooms s) = Some 0) as Hget by (vm_compute; reflexivity).
  assert (store s !! 0 = Some rs) as Hrs by (vm_compute; reflexivity).
  split_and!; [exact Hget|exact Hrs|vm_compute; reflexivity|].
  destruct (proj1 (tick_flushes_dirty_room_once engine edited "r" 0 rs Hget Hrs)
              eq_refl) as (H1 & H2 & _ & H4).
  intros s1. split_and!; [exact H1|exact H2|exact H4].
Defined.

(** C5 at the room of the burst, when its last session leaves. *)
Lemma last_session_saves_then_closes_witness :
  let s := run engine burst init in
  let rs := {| room := {| closed := false; document := "" |};
               id := "r"; needsPersist := false |} in
  store s !! 0 = Some rs ∧
  let s' := step engine s (SessionRemoved 0 "x" 0) in
  trace s' = trace s ++ [WriteFile 0 "r" (Json ""); Close 0] ∧
  writing s' = writing s ++ ["r"] ∧
  store s' !! 0 = Some (close rs) ∧
  rooms s' = rooms s.
Proof.
  intros s rs.
  assert (store s !! 0 = Some rs) as Hrs by (vm_compute; reflexivity).
  split; [exact Hrs|].
  exact (last_session_saves_then_closes engine s 0 rs "x" Hrs).
Defined.


(** The same failure when the read itself fails for another reason than a
    missing file: it is reported twice, and a later call reads again. *)
Example failed_read_then_fresh_attempt :
  let s := run engine [Call "r"; ReadSettles (Throw (ErrnoException "EACCES"));
                       Call "r"] init in
  trace s = [ReadFile "r"; ConsoleError (LoadFailed "r");
             ConsoleError (MutexFailed "r");
             Settle 0 "r" (Throw (ErrnoException "EACCES")); ReadFile "r"] ∧
  rooms s = [] ∧ reading s = true.
Proof. vm_compute. by split_and!. Qed.

(** A closed room is not reused: once the last session has left, the next
    call for the id constructs a second engine and replaces the entry. *)
Example closed_room_is_replaced :
  let s := run engine [Call "r"; ReadSettles no_such_file;
                       SessionRemoved 0 "x" 0;
                       Call "r"; ReadSettles no_such_file] init in
  constructed "r" (trace s) = [0; 1] ∧
  settled "r" (trace s) = [Ok 0; Ok 1] ∧
  JsMap.get "r" (rooms s) = Some 1.
Proof. vm_compute. by split_and!. Qed.

(** A tick reaps the closed room after writing it once more if it is dirty. *)
Example tick_reaps_closed_room :
  let s := run engine (edited ++ [SessionRemoved 0 "x" 0; Tick]) init in
  rooms s = [] ∧
  writes_of 0 (trace s) = [("r", Json "d1"); ("r", Json "d1")].
Proof. vm_compute. by split. Qed.

End RoomsExamples.

(** ** Further properties of the room registry *)

Module RoomsMore.
Import Rooms RoomsSpec RoomsTrace.

Section Facts.
Context {Snapshot : Type}.
Variable new_TLSocketRoom : option (JsonValue Snapshot) → Result Error Snapshot.
Implicit Types (s : State Snapshot) (e : Event Snapshot)
  (rs : RoomState Snapshot) (h : handle) (es : list (Effect Snapshot)).

Local Abbreviation run := (run new_TLSocketRoom).
Local Abbreviation step := (step new_TLSocketRoom).
Local Abbreviation construct := (construct new_TLSocketRoom).
Local Abbreviation restoration := (restoration new_TLSocketRoom).

Lemma answered_app es1 es2 : answered (es1 ++ es2) = answered es1 ++ answered es2.
Proof. apply omap_app. Qed.

Lemma reads_started_app es1 es2 :
  reads_started (es1 ++ es2) = reads_started es1 + reads_started es2.
Proof. unfold reads_started. by rewrite omap_app, length_app. Qed.

Lemma constructions_app es1 es2 :
  constructions (es1 ++ es2) = constructions es1 + constructions es2.
Proof. unfold constructions. by rewrite omap_app, length_app. Qed.

Lemma failures_app es1 es2 : failures (es1 ++ es2) = failures es1 + failures es2.
Proof. unfold failures. by rewrite omap_app, length_app. Qed.

(** *** Steps that leave the creation path alone *)

Lemma untouched_refl s : chain_untouched s s.
Proof. by repeat split. Qed.

Lemma untouched_trans s1 s2 s3 :
  chain_untouched s1 s2 → chain_untouched s2 s3 → chain_untouched s1 s3.
Proof.
  unfold chain_untouched. intros (?&?&?&?&?&?&?) (?&?&?&?&?&?&?).
  split_and!; congruence.
Qed.

Lemma untouched_same s s' :
  mutex s' = mutex s → reading s' = reading s → calls s' = calls s →
  trace s' = trace s → chain_untouched s s'.
Proof. intros Hm Hr Hc Ht. unfold chain_untouched. by rewrite Hm, Hr, Hc, Ht. Qed.

Lemma untouched_emit (eff : Effect Snapshot) s :
  answered [eff] = [] → reads_started [eff] = 0 →
  constructions [eff] = 0 → failures [eff] = 0 →
  chain_untouched s (emit eff s).
Proof.
  intros Ha Hr Hc Hf. unfold chain_untouched. simpl.
  rewrite answered_app, reads_started_app, constructions_app, failures_app.
  rewrite Ha, Hr, Hc, Hf, app_nil_r. split_and!; try done; lia.
Qed.

Lemma saveSnapshot_untouched roomId h s :
  chain_untouched s (saveSnapshot roomId h s).
Proof.
  unfold saveSnapshot. destruct (store s !! h); [|apply untouched_refl].
  eapply untouched_trans; [|by apply untouched_emit]. by apply untouched_same.
Qed.

Lemma tick_visit_untouched s entry : chain_untouched s (tick_visit s entry).
Proof.
  unfold tick_visit.
  destruct (JsMap.has _ _); [|apply untouched_refl].
  destruct (store s !! entry.2) as [rs|]; [|apply untouched_refl].
  assert (chain_untouched s (if needsPersist rs
            then saveSnapshot (id rs) entry.2
                   (with_store (alter (set_needsPersist false) entry.2) s)
            else s)) as H1.
  { destruct (needsPersist rs); [|apply untouched_refl].
    eapply untouched_trans; [|apply saveSnapshot_untouched].
    by apply untouched_same. }
  destruct (closed (room rs)); [|done].
  eapply untouched_trans; [done|].
  eapply untouched_trans; [|by apply untouched_emit]. by apply untouched_same.
Qed.

Lemma tick_untouched s : chain_untouched s (tick s).
Proof.
  unfold tick. generalize (rooms s). intros entries. revert s.
  induction entries as [|entry entries IH]; intros s; [apply untouched_refl|].
  simpl. eapply untouched_trans; [apply tick_visit_untouched|apply IH].
Qed.

Lemma onSessionRemoved_untouched h sid n s :
  chain_untouched s (onSessionRemoved h sid n s).
Proof.
  unfold onSessionRemoved. destruct (store s !! h) as [rs|]; [|apply untouched_refl].
  destruct (n =? 0); [|apply untouched_refl].
  eapply untouched_trans; [apply saveSnapshot_untouched|].
  eapply untouched_trans; [|by apply untouched_emit]. by apply untouched_same.
Qed.

Lemma write_settles_untouched n ok s : chain_untouched s (write_settles n ok s).
Proof.
  unfold write_settles. destruct (writing s !! n); [|apply untouched_refl].
  destruct ok; [by apply untouched_same|].
  eapply untouched_trans; [|by apply untouched_emit]. by apply untouched_same.
Qed.

(** Every event but a call and a settling read leaves the creation path
    alone. *)
Lemma step_untouched s e :
  match e with Call _ | ReadSettles _ => False | _ => True end →
  chain_untouched s (step s e).
Proof.
  destruct e as [r|outcome| |h d|h sid n|n ok]; simpl; try done; intros _.
  - apply tick_untouched.
  - apply onSessionRemoved_untouched.
  - apply write_settles_untouched.
Qed.

(** *** What the chain does to the trace *)

Lemma settle_effects c r err s :
  mutex (settle c r err s) = mutex s ∧ reading (settle c r err s) = reading s ∧
  calls (settle c r err s) = calls s ∧
  answered (trace (settle c r err s)) = answered (trace s) ++ [c] ∧
  reads_started (trace (settle c r err s)) = reads_started (trace s) ∧
  constructions (trace (settle c r err s)) = constructions (trace s) ∧
  failures (trace (settle c r err s)) = failures (trace s).
Proof.
  unfold settle.
  destruct err; [|destruct (JsMap.get r (rooms s))]; simpl;
    rewrite answered_app, reads_started_app, constructions_app, failures_app;
    simpl; split_and!; try done; lia.
Qed.

Lemma run_chain_effects q s :
  calls (run_chain q s) = calls s ∧
  answered (trace (run_chain q s)) ++ (mutex (run_chain q s)).*1 =
    answered (trace s) ++ q.*1 ∧
  reads_started (trace (run_chain q s)) =
    reads_started (trace s) + (if reading (run_chain q s) then 1 else 0) ∧
  constructions (trace (run_chain q s)) = constructions (trace s) ∧
  failures (trace (run_chain q s)) = failures (trace s) ∧
  (reading (run_chain q s) = false → mutex (run_chain q s) = []).
Proof.
  revert s. induction q as [|[c r] q IH]; intros s; cbn [run_chain].
  - simpl. split_and!; try done; lia.
  - destruct (room_open r s).
    + destruct (IH (settle c r None s)) as (H1 & H2 & H3 & H4 & H5 & H6).
      destruct (settle_effects c r None s) as (_ & _ & E3 & E4 & E5 & E6 & E7).
      rewrite H1, H2, H3, H4, H5, E3, E4, E5, E6, E7.
      split_and!; try done. by rewrite <-app_assoc.
    + simpl. rewrite reads_started_app, constructions_app, failures_app,
        answered_app. simpl. rewrite app_nil_r.
      split_and!; try done; lia.
Qed.

Lemma construct_effects r initial s s1 :
  construct r initial s = Ok s1 →
  mutex s1 = mutex s ∧
  calls s1 = calls s ∧
  answered (trace s1) = answered (trace s) ∧
  reads_started (trace s1) = reads_started (trace s) ∧
  constructions (trace s1) = S (constructions (trace s)) ∧
  failures (trace s1) = failures (trace s).
Proof.
  intros (d & _ & _ & _ & -> & -> & _ & -> & _)%construct_Ok.
  rewrite answered_app, reads_started_app, constructions_app, failures_app.
  simpl. rewrite app_nil_r.
  split_and!; try done; unfold constructions; simpl; lia.
Qed.

Lemma report_effects (what : Complaint) s :
  calls (emit (ConsoleError what) s) = calls s ∧
  answered (trace (emit (ConsoleError what) s)) = answered (trace s) ∧
  reads_started (trace (emit (ConsoleError what) s)) = reads_started (trace s) ∧
  constructions (trace (emit (ConsoleError what) s)) = constructions (trace s) ∧
  failures (trace (emit (ConsoleError what) s)) =
    failures (trace s) + (match what with MutexFailed _ => 1 | _ => 0 end).
Proof.
  simpl. rewrite answered_app, reads_started_app, constructions_app, failures_app.
  simpl. rewrite app_nil_r. split_and!; try done; try lia.
  by destruct what.
Qed.

(** The invariant of the creation path, in every reachable state. *)
Lemma chain_accounts events :
  let s := run events init in
  answered (trace s) ++ (mutex s).*1 = seq 0 (calls s) ∧
  reads_started (trace s) =
    constructions (trace s) + failures (trace s) +
    (if reading s then 1 else 0) ∧
  (reading s = false → mutex s = []).
Proof.
  apply (run_ind new_TLSocketRoom (λ _, True) (λ _ s,
    answered (trace s) ++ (mutex s).*1 = seq 0 (calls s) ∧
    reads_started (trace s) =
      constructions (trace s) + failures (trace s) +
      (if reading s then 1 else 0) ∧
    (reading s = false → mutex s = []))); [done| |by apply Forall_true].
  clear events. intros _ s e _ (Hfifo & Hreads & Hidle).
  assert (∀ e', match e' with Call _ | ReadSettles _ => False | _ => True end →
            answered (trace (step s e')) ++ (mutex (step s e')).*1 =
              seq 0 (calls (step s e')) ∧
            reads_started (trace (step s e')) =
              constructions (trace (step s e')) + failures (trace (step s e')) +
              (if reading (step s e') then 1 else 0) ∧
            (reading (step s e') = false → mutex (step s e') = [])) as Hother.
  { intros e' He'.
    destruct (step_untouched s e' He') as (Hm & Hr & Hc & Ha & Hrs & Hcs & Hf).
    by rewrite Hm, Hr, Hc, Ha, Hrs, Hcs, Hf. }
  destruct e as [r|outcome| |h d|h sid n|n ok]; try by apply Hother.
  - simpl. unfold getOrCreateRoom. simpl.
    destruct (reading s) eqn:Hreading.
    + simpl. change (0 :: seq 1 (calls s)) with (seq 0 (S (calls s))).
      rewrite fmap_app, app_assoc, Hfifo, seq_S.
      split_and!; done.
    + rewrite (Hidle eq_refl) in Hfifo |- *. cbn [app].
      destruct (run_chain_effects [(calls s, r)] (count_call s))
        as (H1 & H2 & H3 & H4 & H5 & H6).
      rewrite H1, H2, H3, H4, H5. simpl.
      change (0 :: seq 1 (calls s)) with (seq 0 (S (calls s))).
      rewrite seq_S. rewrite app_nil_r in Hfifo. rewrite Hfifo.
      split_and!; try done.
      rewrite Hreads. lia.
  - simpl. unfold read_settles.
    destruct (reading s) eqn:Hreading; [|by rewrite Hreading].
    destruct (mutex s) as [|[c r] q] eqn:Hmutex; [by rewrite Hreading, Hmutex|].
    assert (∀ s0, calls s0 = calls s →
              answered (trace s0) = answered (trace s) →
              reads_started (trace s0) = reads_started (trace s) →
              constructions (trace s0) + failures (trace s0) =
                S (constructions (trace s) + failures (trace s)) →
              ∀ err,
              answered (trace (run_chain q (settle c r err s0))) ++
                (mutex (run_chain q (settle c r err s0))).*1 =
                seq 0 (calls (run_chain q (settle c r err s0))) ∧
              reads_started (trace (run_chain q (settle c r err s0))) =
                constructions (trace (run_chain q (settle c r err s0))) +
                failures (trace (run_chain q (settle c r err s0))) +
                (if reading (run_chain q (settle c r err s0)) then 1 else 0) ∧
              (reading (run_chain q (settle c r err s0)) = false →
               mutex (run_chain q (settle c r err s0)) = [])) as Hgo.
    { intros s0 C1 C2 C3 C4 err.
      destruct (run_chain_effects q (settle c r err s0))
        as (H1 & H2 & H3 & H4 & H5 & H6).
      destruct (settle_effects c r err s0) as (_ & _ & E3 & E4 & E5 & E6 & E7).
      rewrite H1, H2, H3, H4, H5, E3, E4, E5, E6, E7, C1, C2, C3.
      split_and!; [|lia|done].
      rewrite <-Hfifo. simpl. by rewrite <-app_assoc. }
    destruct (readSnapshotIfExists outcome) as [initial|err].
    + destruct (construct r initial s) as [s1|err] eqn:Hs1.
      * destruct (construct_effects r initial s s1 Hs1)
          as (_ & C2 & C3 & C4 & C5 & C6).
        apply Hgo; [done..|lia].
      * destruct (report_effects (MutexFailed r) s) as (C2 & C3 & C4 & C5 & C6).
        apply Hgo; [done..|lia].
    + destruct (report_effects (LoadFailed r) s) as (B2 & B3 & B4 & B5 & B6).
      destruct (report_effects (MutexFailed r) (emit (ConsoleError (LoadFailed r)) s))
        as (C2 & C3 & C4 & C5 & C6).
      apply Hgo; [congruence..|lia].
Qed.

Lemma calls_counted events : calls (run events init) = number_of_calls events.
Proof.
  apply (run_ind new_TLSocketRoom (λ _, True) (λ events s, calls s = number_of_calls events));
    [done| |by apply Forall_true].
  clear events. intros events s e _ IH.
  unfold number_of_calls in *.
  rewrite filter_app, length_app, <-IH, filter_cons, filter_nil.
  assert (∀ e', match e' with Call _ | ReadSettles _ => False | _ => True end →
            calls (step s e') = calls s) as Hother.
  { intros e' He'. by destruct (step_untouched s e' He') as (_ & _ & -> & _). }
  destruct e as [r|outcome| |h d|h sid n|n ok];
    try (rewrite Hother by done; simpl; lia).
  - simpl. unfold getOrCreateRoom. simpl. destruct (reading s); simpl; [lia|].
    destruct (run_chain_effects (mutex s ++ [(calls s, r)]) (count_call s))
      as (-> & _). simpl. lia.
  - simpl. unfold read_settles. destruct (reading s); [|lia].
    destruct (mutex s) as [|[c r] q]; [lia|].
    assert (∀ s0 err, calls s0 = calls s →
              calls (run_chain q (settle c r err s0)) = calls s + 0) as Hgo.
    { intros s0 err Hs0.
      destruct (run_chain_effects q (settle c r err s0)) as (-> & _).
      destruct (settle_effects c r err s0) as (_ & _ & -> & _). lia. }
    destruct (readSnapshotIfExists outcome) as [initial|err].
    + destruct (construct r initial s) as [s1|err] eqn:Hs1.
      * apply Hgo. by destruct (construct_effects r initial s s1 Hs1) as (_ & ? & _).
      * by apply Hgo.
    + by apply Hgo.
Qed.

(** X1. The chain answers in the order of the calls: at any moment the
    callers already answered, in the order of their answers, followed by the
    callers still queued, are the calls made so far in the order they were
    made. So no call is answered twice or overtaken, and when no read is in
    flight every call has been answered. *)
Theorem callers_are_answered_in_call_order events :
  let s := run events init in
  answered (trace s) ++ (mutex s).*1 = seq 0 (number_of_calls events) ∧
  (reading s = false → answered (trace s) = seq 0 (number_of_calls events)).
Proof.
  intros s. destruct (chain_accounts events) as (Hfifo & _ & Hidle).
  fold s in Hfifo, Hidle. rewrite <-(calls_counted events). fold s.
  split; [done|]. intros Hreading.
  by rewrite <-Hfifo, (Hidle Hreading), app_nil_r.
Qed.

(** X2. Restoration reads are serialized: every read that was started has
    ended in one construction or in one failed creation, except the single
    one that may be in flight. A read therefore starts only after the
    previous one has settled. *)
Theorem restoration_reads_are_serialized events :
  let s := run events init in
  reads_started (trace s) =
    constructions (trace s) + failures (trace s) +
    (if reading s then 1 else 0).
Proof. intros s. by destruct (chain_accounts events) as (_ & Hreads & _). Qed.

(** *** The tick and the registry *)

Lemma tick_visit_room s entry h :
  room <$> store (tick_visit s entry) !! h = room <$> store s !! h.
Proof.
  unfold tick_visit.
  destruct (JsMap.has _ _); [|done].
  destruct (store s !! entry.2) as [rs|] eqn:Hrs; [|done].
  assert (∀ s', store s' = alter (set_needsPersist false) entry.2 (store s) →
            room <$> store s' !! h = room <$> store s !! h) as Halter.
  { intros s' ->. destruct (decide (entry.2 = h)) as [<-|Hne].
    - by rewrite list_lookup_alter_eq, Hrs.
    - by rewrite list_lookup_alter_ne. }
  destruct (needsPersist rs), (closed (room rs)); simpl; try done;
    apply Halter; unfold saveSnapshot; simpl;
    by rewrite list_lookup_alter_eq, Hrs.
Qed.

Lemma tick_fold_room entries s h :
  room <$> store (foldl tick_visit s entries) !! h = room <$> store s !! h.
Proof.
  revert s. induction entries as [|entry entries IH]; intros s; [done|].
  simpl. by rewrite IH, tick_visit_room.
Qed.

Lemma tick_fold_id entries s h :
  id <$> store (foldl tick_visit s entries) !! h = id <$> store s !! h.
Proof.
  revert s. induction entries as [|entry entries IH]; intros s; [done|].
  simpl. by rewrite IH, tick_visit_id.
Qed.

Lemma tick_visit_get_shrink s entry k :
  JsMap.get k (rooms (tick_visit s entry)) = None ∨
  JsMap.get k (rooms (tick_visit s entry)) = JsMap.get k (rooms s).
Proof.
  unfold tick_visit.
  destruct (JsMap.has _ _); [|by right].
  destruct (store s !! entry.2) as [rs|] eqn:Hrs; [|by right].
  unfold saveSnapshot. simpl.
  destruct (needsPersist rs), (closed (room rs)); simpl;
    rewrite ?list_lookup_alter_eq, ?Hrs; simpl;
    try (by right); apply JsMapFacts.get_delete.
Qed.

Lemma tick_fold_get_None entries s k :
  JsMap.get k (rooms s) = None →
  JsMap.get k (rooms (foldl tick_visit s entries)) = None.
Proof.
  revert s. induction entries as [|entry entries IH]; intros s Hnone; [done|].
  simpl. apply IH. destruct (tick_visit_get_shrink s entry k); congruence.
Qed.

Lemma tick_visit_own s k h rs :
  JsMap.has k (rooms s) = true → store s !! h = Some rs → id rs = k →
  JsMap.get k (rooms (tick_visit s (k, h))) =
  if closed (room rs) then None else JsMap.get k (rooms s).
Proof.
  intros Hhas Hrs <-. unfold tick_visit. simpl. rewrite Hhas, Hrs.
  unfold saveSnapshot. simpl.
  destruct (needsPersist rs), (closed (room rs)); simpl;
    rewrite ?list_lookup_alter_eq, ?Hrs; simpl;
    try done; apply JsMapFacts.get_delete_eq.
Qed.

(** What a tick does to the entry of one room id. *)
Lemma tick_reaps s k :
  registry_ok s →
  JsMap.get k (rooms (tick s)) =
  if room_open k s then JsMap.get k (rooms s) else None.
Proof.
  intros [Hnd Hreg]. unfold room_open.
  destruct (JsMap.get k (rooms s)) as [h|] eqn:Hget; last first.
  { by apply tick_fold_get_None. }
  pose proof (JsMapFacts.get_Some_elem_of _ _ _ Hget) as Hin.
  destruct (Hreg k h Hin) as (rs & Hrs & Hid). rewrite Hrs.
  apply list_elem_of_split in Hin as (pre & post & Hsplit).
  assert (∀ entry, entry ∈ pre ++ post →
            id <$> store s !! entry.2 = Some entry.1 ∧ entry.1 ≠ k) as Hothers.
  { intros [k' h'] Hin'. simpl.
    destruct (Hreg k' h') as (rs' & Hrs' & Hid').
    { rewrite Hsplit. apply elem_of_app in Hin' as [?|?];
        apply elem_of_app; [by left|right; by right]. }
    split; [by rewrite Hrs', <-Hid'|].
    intros ->. unfold JsMap.keys in Hnd. rewrite Hsplit, fmap_app in Hnd.
    simpl in Hnd. apply NoDup_app in Hnd as (Hpre & Hdisj & Hpost).
    apply NoDup_cons in Hpost as [Hpost _].
    apply elem_of_app in Hin' as [Hin'|Hin'].
    - apply (Hdisj k); [|left]. apply list_elem_of_fmap. by exists (k, h').
    - apply Hpost. apply list_elem_of_fmap. by exists (k, h'). }
  unfold tick. rewrite Hsplit, foldl_app. simpl.
  set (s1 := foldl tick_visit s pre).
  assert (JsMap.get k (rooms s1) = Some h) as Hget1.
  { unfold s1. rewrite tick_fold_get; [done|].
    intros entry Hin'. destruct (Hothers entry) as [-> Hne].
    - apply elem_of_app. by left.
    - congruence. }
  assert (∃ rs1, store s1 !! h = Some rs1 ∧ id rs1 = k ∧
                 closed (room rs1) = closed (room rs)) as (rs1 & Hrs1 & Hid1 & Hcl1).
  { pose proof (tick_fold_room pre s h) as Hroom.
    pose proof (tick_fold_id pre s h) as Hident.
    fold s1 in Hroom, Hident. rewrite Hrs in Hroom, Hident.
    destruct (store s1 !! h) as [rs1|]; [|done].
    exists rs1. simpl in *. split_and!; [done|congruence|congruence]. }
  rewrite tick_fold_get.
  - rewrite (tick_visit_own s1 k h rs1); [|unfold JsMap.has; by rewrite Hget1|done..].
    rewrite Hcl1, Hget1. by destruct (closed (room rs)).
  - intros entry Hin'. rewrite tick_visit_id. unfold s1. rewrite tick_fold_id.
    destruct (Hothers entry) as [-> Hne].
    + apply elem_of_app. by right.
    + congruence.
Qed.

(** X3. A tick removes from the registry exactly the rooms whose engine is
    closed: after it, a room id leads to the engine it led to before if that
    engine is open, and to nothing otherwise. *)
Theorem tick_reaps_exactly_the_closed_rooms events roomId :
  let s := run events init in
  JsMap.get roomId (rooms (tick s)) =
  if room_open roomId s then JsMap.get roomId (rooms s) else None.
Proof. intros s. apply tick_reaps, registry_ok_run. Qed.

(** X4. After a tick no room that was registered is marked dirty, whether
    the tick wrote it or found it clean. *)
Theorem tick_leaves_no_registered_room_dirty events roomId h :
  let s := run events init in
  JsMap.get roomId (rooms s) = Some h →
  needsPersist_at h (tick s) = Some false.
Proof.
  intros s Hget.
  pose proof (registry_ok_run new_TLSocketRoom events) as Hok. fold s in Hok.
  destruct (proj2 Hok roomId h (JsMapFacts.get_Some_elem_of _ _ _ Hget))
    as (rs & Hrs & _).
  destruct (needsPersist rs) eqn:Hdirty.
  - by destruct (tick_dirty s roomId h rs Hok Hget Hrs Hdirty).
  - apply tick_fold_clean. unfold needsPersist_at. by rewrite Hrs, <-Hdirty.
Qed.

(** X5. When the last session leaves a registered room, the callback writes
    the final snapshot once; as it leaves the dirty flag alone, the next
    tick writes the same snapshot once more if the room was dirty, and in
    either case removes the room from the registry. *)
Theorem last_session_then_tick events roomId h rs sessionId :
  let s := run events init in
  JsMap.get roomId (rooms s) = Some h →
  store s !! h = Some rs →
  let s' := tick (step s (SessionRemoved h sessionId 0)) in
  let data := JSON_stringify (document (room rs)) in
  writes_of h (trace s') =
    writes_of h (trace s) ++
      (roomId, data) :: (if needsPersist rs then [(roomId, data)] else []) ∧
  JsMap.get roomId (rooms s') = None.
Proof.
  intros s Hget Hrs s' data.
  pose proof (registry_ok_run new_TLSocketRoom events) as Hok. fold s in Hok.
  destruct (proj2 Hok roomId h (JsMapFacts.get_Some_elem_of _ _ _ Hget))
    as (rs' & Hrs' & Hid).
  assert (rs' = rs) as -> by congruence.
  set (s1 := step s (SessionRemoved h sessionId 0)).
  pose proof (step_registry_ok new_TLSocketRoom s (SessionRemoved h sessionId 0) Hok) as Hok1.
  fold s1 in Hok1.
  assert (rooms s1 = rooms s ∧ store s1 !! h = Some (close rs) ∧
          writes_of h (trace s1) = writes_of h (trace s) ++ [(roomId, data)])
    as (Hrooms1 & Hrs1 & Hw1).
  { unfold s1. simpl. unfold onSessionRemoved, saveSnapshot. rewrite Hrs. simpl.
    rewrite list_lookup_alter_eq, Hrs, !writes_of_app. simpl.
    by rewrite Nat.eqb_refl, app_nil_r, Hid. }
  split.
  - unfold s'. fold s1. destruct (needsPersist rs) eqn:Hdirty.
    + destruct (tick_dirty s1 roomId h (close rs) Hok1) as [-> _];
        [by rewrite Hrooms1|done|done|].
      by rewrite Hw1, <-app_assoc.
    + destruct (tick_fold_clean (rooms s1) s1 h) as [Hw _].
      { unfold needsPersist_at. by rewrite Hrs1, <-Hdirty. }
      unfold tick. by rewrite Hw, Hw1.
  - unfold s'. fold s1. rewrite (tick_reaps s1 roomId Hok1).
    unfold room_open. by rewrite Hrooms1, Hget, Hrs1.
Qed.

(** X6. A call for a room that is registered and open, made while no read
    is in flight, is answered at once with the registered engine: nothing is
    read, nothing is constructed and the registry is left as it was. *)
Theorem open_room_is_returned_at_once events roomId h rs :
  let s := run events init in
  reading s = false →
  JsMap.get roomId (rooms s) = Some h →
  store s !! h = Some rs →
  closed (room rs) = false →
  let s' := step s (Call roomId) in
  trace s' = trace s ++ [Settle (calls s) roomId (Ok h)] ∧
  rooms s' = rooms s ∧ store s' = store s ∧
  reading s' = false ∧ mutex s' = [].
Proof.
  intros s Hreading Hget Hrs Hopen s'.
  destruct (chain_accounts events) as (_ & _ & Hidle). fold s in Hidle.
  unfold s'. simpl. unfold getOrCreateRoom. simpl.
  rewrite Hreading, (Hidle Hreading). cbn [app run_chain].
  unfold room_open, settle. simpl. by rewrite Hget, Hrs, Hopen.
Qed.

(** X7. A closed room is never handed out again: a call for a room whose
    registered engine is closed, made while no read is in flight, starts a
    read. When the restoration succeeds, a new engine is constructed, takes
    the place of the closed one under the same key and is given to the
    caller; the closed engine is left as it is. When the restoration fails,
    the caller is given the error and the registry keeps the closed
    engine. *)
Theorem closed_room_is_replaced_by_a_new_engine events roomId h rs outcome :
  let s := run events init in
  reading s = false →
  JsMap.get roomId (rooms s) = Some h →
  store s !! h = Some rs →
  closed (room rs) = true →
  let s' := step (step s (Call roomId)) (ReadSettles outcome) in
  let h' := length (store s) in
  match restoration outcome with
  | Ok (initialSnapshot, d) =>
      trace s' = trace s ++ [ReadFile roomId;
                             Construct h' roomId initialSnapshot;
                             Settle (calls s) roomId (Ok h')] ∧
      h' ≠ h ∧
      JsMap.get roomId (rooms s') = Some h' ∧
      JsMap.keys (rooms s') = JsMap.keys (rooms s) ∧
      store s' !! h' =
        Some {| room := {| closed := false; document := d |};
                id := roomId; needsPersist := false |} ∧
      room_open roomId s' = true ∧
      store s' !! h = Some rs
  | Throw error =>
      trace s' = trace s ++ [ReadFile roomId] ++ complaints roomId outcome ++
                 [Settle (calls s) roomId (Throw error)] ∧
      rooms s' = rooms s ∧ store s' = store s ∧
      room_open roomId s' = false
  end.
Proof.
  intros s Hreading Hget Hrs Hclosed s' h'.
  destruct (chain_accounts events) as (_ & _ & Hidle). fold s in Hidle.
  assert (h < length (store s)) as Hlt by by eapply lookup_lt_Some.
  assert (room_open roomId s = false) as Hro.
  { unfold room_open. by rewrite Hget, Hrs, Hclosed. }
  set (t := step s (Call roomId)) in *.
  assert (t = emit (ReadFile roomId)
                (with_chain [(calls s, roomId)] true (count_call s))) as Hcall.
  { unfold t. simpl. unfold getOrCreateRoom. simpl.
    rewrite Hreading, (Hidle Hreading). cbn [app run_chain].
    change (room_open roomId (count_call s)) with (room_open roomId s).
    by rewrite Hro. }
  assert (reading t = true ∧ mutex t = [(calls s, roomId)] ∧
          rooms t = rooms s ∧ store t = store s ∧
          trace t = trace s ++ [ReadFile roomId]) as (Hr & Hm & Hrt & Hst & Htt).
  { by rewrite Hcall. }
  destruct (restoration outcome) as [[initial d]|error] eqn:Hres.
  - destruct (read_settles_succeeds new_TLSocketRoom t (calls s) roomId []
                outcome initial d Hr Hm Hres) as (s1 & Hs' & H1 & H2 & _ & H4).
    fold s' in Hs'. cbn [run_chain] in Hs'.
    rewrite Hrt, Hst, Htt in *. fold h' in H1, H4.
    assert (JsMap.get roomId (rooms s') = Some h') as Hget'.
    { by rewrite Hs'; simpl; rewrite H1, JsMapFacts.get_set_eq. }
    assert (store s' !! h' =
              Some {| room := {| closed := false; document := d |};
                      id := roomId; needsPersist := false |}) as Hnew.
    { rewrite Hs'. simpl. rewrite H2. unfold h'.
      by rewrite lookup_app_r, Nat.sub_diag. }
    split_and!; [|unfold h'; lia|done| |done| |].
    + rewrite Hs'. simpl. rewrite H4. by rewrite <-app_assoc.
    + rewrite Hs'. simpl. rewrite H1, JsMapFacts.keys_set.
      unfold JsMap.has. by rewrite Hget.
    + unfold room_open. by rewrite Hget', Hnew.
    + rewrite Hs'. simpl. rewrite H2. by apply lookup_app_l_Some.
  - destruct (read_settles_fails new_TLSocketRoom t (calls s) roomId []
                outcome error Hr Hm Hres) as (s1 & Hs' & H1 & H2 & _ & H4).
    fold s' in Hs'. cbn [run_chain] in Hs'.
    assert (rooms s' = rooms s) as Hrooms by (rewrite Hs'; simpl; congruence).
    assert (store s' = store s) as Hstore by (rewrite Hs'; simpl; congruence).
    split_and!; [|done..|].
    + rewrite Hs'. simpl. rewrite H4, Htt. by rewrite <-!app_assoc.
    + by rewrite (room_open_same _ s s').
Qed.

(** X8. [readSnapshotIfExists] turns exactly one failure into "no
    snapshot": a read that fails with [ENOENT]. When the read succeeds and
    the text parses, it returns what [JSON.parse] returned, whether that is
    a snapshot or not; in every other case it rethrows what was thrown, be
    it the error of the read or the syntax error of the parse. *)
Theorem readSnapshotIfExists_outcomes (outcome : Result Error (FileText Snapshot)) :
  (readSnapshotIfExists outcome = Ok None ↔
     outcome = Throw (ErrnoException "ENOENT")) ∧
  (∀ value, readSnapshotIfExists outcome = Ok (Some value) ↔
     ∃ data, outcome = Ok data ∧ JSON_parse data = Ok value) ∧
  (∀ text, outcome = Ok (JsonOther text) →
     readSnapshotIfExists outcome = Ok (Some (OtherValue text))) ∧
  (∀ error, readSnapshotIfExists outcome = Throw error ↔
     (outcome = Throw error ∧ error ≠ ErrnoException "ENOENT") ∨
     (∃ data, outcome = Ok data ∧ JSON_parse data = Throw error)).
Proof.
  unfold readSnapshotIfExists. split_and!.
  - destruct outcome as [[snapshot|text|]|[code| | |message]]; simpl;
      try case_bool_decide; split; intros Hx; simplify_eq/=; done.
  - intros value.
    destruct outcome as [[snapshot|text|]|[code| | |message]]; simpl;
      try case_bool_decide; split;
      try (intros (data & Hd & Hp)); try intros Hx; simplify_eq/=; eauto.
  - by intros text ->.
  - intros error.
    destruct outcome as [[snapshot|text|]|[code| | |message]]; simpl;
      try case_bool_decide; split;
      try (intros [[Hd Hp]|(data & Hd & Hp)]); try intros Hx;
      simplify_eq/=; eauto;
      try (left; split; [done|]; intros ?; simplify_eq/=; done).
Qed.

End Facts.
End RoomsMore.

(** ** Concurrent requests for a new room *)

Module RoomsBurst.
Import Rooms RoomsSpec RoomsTrace RoomsMore.

Section Facts.
Context {Snapshot : Type}.
Variable new_TLSocketRoom : option (JsonValue Snapshot) → Result Error Snapshot.
Implicit Types (s : State Snapshot) (e : Event Snapshot)
  (rs : RoomState Snapshot) (h : handle) (es : list (Effect Snapshot)).

Local Abbreviation run := (run new_TLSocketRoom).
Local Abbreviation step := (step new_TLSocketRoom).
Local Abbreviation construct := (construct new_TLSocketRoom).
Local Abbreviation restoration := (restoration new_TLSocketRoom).
Local Abbreviation undisturbed := (undisturbed new_TLSocketRoom).
Local Abbreviation undisturbed_run := (undisturbed_run new_TLSocketRoom).

Lemma run_app events1 events2 s :
  run (events1 ++ events2) s = run events2 (run events1 s).
Proof. unfold Rooms.run. by rewrite foldl_app. Qed.

Lemma undisturbed_run_snoc roomId events e s :
  undisturbed_run roomId s (events ++ [e]) =
  undisturbed_run roomId s events && undisturbed roomId (run events s) e.
Proof.
  revert s. induction events as [|e' events IH]; intros s; simpl.
  - by rewrite andb_true_r.
  - by rewrite IH, andb_assoc.
Qed.

Lemma called_app r (events1 events2 : list (Event Snapshot)) :
  called r (events1 ++ events2) = called r events1 + called r events2.
Proof. unfold called. by rewrite filter_app, length_app. Qed.

Lemma Forall_eq_replicate {A} (x : A) (l : list A) :
  Forall (λ y, y = x) l → l = replicate (length l) x.
Proof. induction 1 as [|y l -> _ IH]; simpl; [done|]. by rewrite <-IH. Qed.

(** *** What keeps the story of a room id *)

Lemma created_once_keep roomId s s' :
  (JsMap.get roomId (rooms s) = None → JsMap.get roomId (rooms s') = None) →
  (∀ h, JsMap.get roomId (rooms s) = Some h → room_open roomId s = true →
        JsMap.get roomId (rooms s') = Some h ∧ room_open roomId s' = true) →
  constructed roomId (trace s') = constructed roomId (trace s) →
  settled roomId (trace s') = settled roomId (trace s) →
  created_once roomId s → created_once roomId s'.
Proof.
  intros Hnone Hsome Hc Hs. unfold created_once. rewrite Hc, Hs.
  destruct (JsMap.get roomId (rooms s)) as [h|].
  - intros (Hopen & ? & ?). destruct (Hsome h eq_refl Hopen) as [-> ->]. done.
  - intros ?. by rewrite Hnone.
Qed.

Lemma created_once_ext roomId s s' :
  rooms s' = rooms s → store s' = store s →
  constructed roomId (trace s') = constructed roomId (trace s) →
  settled roomId (trace s') = settled roomId (trace s) →
  created_once roomId s → created_once roomId s'.
Proof.
  intros Hr Hst. apply created_once_keep.
  - by rewrite Hr.
  - intros h. by rewrite (room_open_same roomId s s'), Hr.
Qed.

Lemma created_once_emit roomId (eff : Effect Snapshot) s :
  constructed roomId [eff] = [] → settled roomId [eff] = [] →
  created_once roomId s → created_once roomId (emit eff s).
Proof.
  intros Hc Hs. apply created_once_ext; [done..| |]; simpl.
  - by rewrite constructed_app, Hc, app_nil_r.
  - by rewrite settled_app, Hs, app_nil_r.
Qed.

Lemma settle_other roomId c r err s :
  r ≠ roomId → created_once roomId s →
  created_once roomId (settle c r err s) ∧
  settled roomId (trace (settle c r err s)) = settled roomId (trace s).
Proof.
  intros Hne%String.eqb_neq Hco.
  assert (∀ o, created_once roomId (emit (Settle c r o) s) ∧
               settled roomId (trace (emit (Settle c r o) s)) =
                 settled roomId (trace s)) as Hany.
  { intros o. split.
    - apply created_once_emit; [done| |done]. simpl. by rewrite Hne.
    - simpl. rewrite settled_app. simpl. by rewrite Hne, app_nil_r. }
  unfold settle. destruct err; [apply Hany|].
  destruct (JsMap.get r (rooms s)); apply Hany.
Qed.

Lemma created_once_answer roomId c r s :
  room_open r s = true → created_once roomId s →
  created_once roomId (settle c r None s) ∧
  length (settled roomId (trace (settle c r None s))) =
    length (settled roomId (trace s)) + (if String.eqb r roomId then 1 else 0).
Proof.
  intros Hopen Hco. destruct (String.eqb_spec r roomId) as [->|Hne].
  - unfold created_once, settle in *. unfold room_open in Hopen.
    destruct (JsMap.get roomId (rooms s)) as [h|] eqn:Hget; [|done].
    destruct Hco as (Hro & Hc & Hall). simpl.
    change (room_open roomId (emit (Settle c roomId (Ok h)) s))
      with (room_open roomId s).
    rewrite Hget, constructed_app, settled_app, length_app. simpl.
    rewrite String.eqb_refl, app_nil_r. simpl.
    split_and!; [done..| |done].
    apply Forall_app. split; [done|]. by constructor.
  - destruct (settle_other roomId c r None s Hne Hco) as [? ->].
    split; [done|lia].
Qed.

Lemma run_chain_created roomId q s :
  created_once roomId s →
  created_once roomId (run_chain q s) ∧
  length (settled roomId (trace (run_chain q s))) +
    pending roomId (mutex (run_chain q s)) =
  length (settled roomId (trace s)) + pending roomId q.
Proof.
  revert s. induction q as [|[c r] q IH]; intros s Hco; cbn [run_chain].
  - split; [|done]. by apply (created_once_ext roomId s).
  - destruct (room_open r s) eqn:Hopen.
    + destruct (created_once_answer roomId c r s Hopen Hco) as [Hco' Hlen].
      destruct (IH _ Hco') as [? ->]. split; [done|].
      rewrite Hlen, pending_cons. lia.
    + split.
      * apply created_once_emit; [done..|].
        by apply (created_once_ext roomId s).
      * simpl. by rewrite settled_app, app_nil_r.
Qed.

(** *** Events outside the creation path *)

Lemma saveSnapshot_silent r roomId h s :
  constructed r (trace (saveSnapshot roomId h s)) = constructed r (trace s) ∧
  settled r (trace (saveSnapshot roomId h s)) = settled r (trace s).
Proof.
  unfold saveSnapshot. destruct (store s !! h); [|done]. simpl.
  by rewrite constructed_app, settled_app, !app_nil_r.
Qed.

Lemma tick_visit_silent r s entry :
  constructed r (trace (tick_visit s entry)) = constructed r (trace s) ∧
  settled r (trace (tick_visit s entry)) = settled r (trace s).
Proof.
  unfold tick_visit.
  destruct (JsMap.has _ _); [|done].
  destruct (store s !! entry.2) as [rs|] eqn:Hrs; [|done].
  unfold saveSnapshot. simpl.
  destruct (needsPersist rs), (closed (room rs)); simpl;
    rewrite ?list_lookup_alter_eq, ?Hrs; simpl;
    rewrite ?constructed_app, ?settled_app; simpl;
    by rewrite ?app_nil_r.
Qed.

Lemma tick_silent r s :
  constructed r (trace (tick s)) = constructed r (trace s) ∧
  settled r (trace (tick s)) = settled r (trace s).
Proof.
  unfold tick. generalize (rooms s). intros entries. revert s.
  induction entries as [|entry entries IH]; intros s; [done|].
  simpl. destruct (IH (tick_visit s entry)) as [-> ->].
  apply tick_visit_silent.
Qed.

Lemma room_open_Some roomId s h :
  JsMap.get roomId (rooms s) = Some h → room_open roomId s = true →
  ∃ rs, store s !! h = Some rs ∧ closed (room rs) = false.
Proof.
  unfold room_open. intros ->. destruct (store s !! h) as [rs|]; [|done].
  intros ?%negb_true_iff. by exists rs.
Qed.

(** An event other than a call and a settling read keeps the engine
    registered for [roomId], if it does not take its last session. *)
Lemma other_step_keeps roomId s e :
  registry_ok s →
  match e with Call _ | ReadSettles _ => False | _ => True end →
  undisturbed roomId s e = true →
  (JsMap.get roomId (rooms s) = None →
     JsMap.get roomId (rooms (step s e)) = None) ∧
  (∀ h, JsMap.get roomId (rooms s) = Some h → room_open roomId s = true →
        JsMap.get roomId (rooms (step s e)) = Some h ∧
        room_open roomId (step s e) = true) ∧
  constructed roomId (trace (step s e)) = constructed roomId (trace s) ∧
  settled roomId (trace (step s e)) = settled roomId (trace s).
Proof.
  intros Hok He Hund.
  destruct e as [r|outcome| |h0 d|h0 sid n|n ok]; try done; simpl.
  - pose proof (tick_reaps s roomId Hok) as Hreap.
    split_and!; [| |apply tick_silent..].
    + intros Hnone. rewrite Hreap, Hnone. by destruct (room_open roomId s).
    + intros h Hget Hopen. rewrite Hopen, Hget in Hreap. split; [done|].
      destruct (room_open_Some roomId s h Hget Hopen) as (rs & Hrs & Hcl).
      pose proof (tick_fold_room (rooms s) s h) as Hroom.
      unfold room_open. fold (tick s) in Hroom. rewrite Hreap.
      rewrite Hrs in Hroom. destruct (store (tick s) !! h) as [rs'|]; [|done].
      simpl in Hroom. injection Hroom as ->. by rewrite Hcl.
  - split_and!; [done| |done..].
    intros h Hget Hopen. split; [done|].
    destruct (room_open_Some roomId s h Hget Hopen) as (rs & Hrs & Hcl).
    unfold room_open, onDataChange. simpl. rewrite Hget.
    destruct (decide (h0 = h)) as [->|Hne].
    + rewrite list_lookup_alter_eq, Hrs. simpl. by rewrite Hcl.
    + rewrite list_lookup_alter_ne, Hrs by done. by rewrite Hcl.
  - unfold onSessionRemoved.
    destruct (store s !! h0) as [rs0|] eqn:Hrs0; [|done].
    destruct (n =? 0) eqn:Hn; [|done].
    destruct (saveSnapshot_frame (id rs0) h0 s) as (Hr & Hst & _).
    destruct (saveSnapshot_silent roomId (id rs0) h0 s) as [Hc Hs].
    simpl in Hund. rewrite Hn in Hund. simpl in Hund.
    apply negb_true_iff, bool_decide_eq_false in Hund.
    simpl. rewrite constructed_app, settled_app, Hc, Hs, Hr, !app_nil_r.
    split_and!; [done| |done..].
    intros h Hget Hopen. split; [done|].
    destruct (room_open_Some roomId s h Hget Hopen) as (rs & Hrs & Hcl).
    unfold room_open. simpl. rewrite Hr, Hst, Hget.
    rewrite list_lookup_alter_ne, Hrs by congruence. by rewrite Hcl.
  - unfold write_settles. destruct (writing s !! n); [|done].
    destruct ok; simpl; [done|].
    by rewrite constructed_app, settled_app, !app_nil_r.
Qed.

(** *** One step of an undisturbed creation *)

Lemma step_created_once roomId s e n :
  registry_ok s → chain_waits s → (reading s = false → mutex s = []) →
  created_once roomId s →
  n = length (settled roomId (trace s)) + pending roomId (mutex s) →
  undisturbed roomId s e = true →
  created_once roomId (step s e) ∧
  n + (if is_call roomId e then 1 else 0) =
    length (settled roomId (trace (step s e))) +
    pending roomId (mutex (step s e)) ∧
  (JsMap.get roomId (rooms s) = None → pending roomId (mutex s) = 0 →
   is_call roomId e = false →
   JsMap.get roomId (rooms (step s e)) = None).
Proof.
  intros Hok Hwaits Hidle Hco -> Hund.
  assert (∀ e', e' = e →
            match e' with Call _ | ReadSettles _ => False | _ => True end →
            created_once roomId (step s e) ∧
            length (settled roomId (trace s)) + pending roomId (mutex s) +
              (if is_call roomId e then 1 else 0) =
              length (settled roomId (trace (step s e))) +
              pending roomId (mutex (step s e)) ∧
            (JsMap.get roomId (rooms s) = None → pending roomId (mutex s) = 0 →
             is_call roomId e = false →
             JsMap.get roomId (rooms (step s e)) = None)) as Hother.
  { intros e' -> He.
    destruct (other_step_keeps roomId s e Hok He Hund) as (H1 & H2 & H3 & H4).
    destruct (step_untouched new_TLSocketRoom s e He) as (Hm & _).
    split_and!; [by apply (created_once_keep roomId s)| |by auto].
    rewrite H4, Hm. destruct e; simpl; try done; lia. }
  destruct e as [r|outcome| |h0 d|h0 sid n|n ok]; try by eapply Hother.
  - (* a call *)
    simpl. unfold getOrCreateRoom. simpl.
    assert (created_once roomId (count_call s)) as Hco'
      by by apply (created_once_ext roomId s).
    destruct (reading s) eqn:Hreading.
    + split_and!; [by apply (created_once_ext roomId s)| |done].
      simpl. rewrite pending_app, pending_cons.
      change (pending roomId []) with 0. lia.
    + rewrite (Hidle eq_refl). cbn [app].
      destruct (run_chain_created roomId [(calls s, r)] (count_call s) Hco')
        as [Hco1 Hlen1].
      split_and!; [done| |].
      * rewrite Hlen1, pending_cons. change (pending roomId []) with 0.
        simpl. lia.
      * intros Hnone _ _. by destruct (run_chain_frame [(calls s, r)] (count_call s))
          as [-> _].
  - (* the read of the oldest task settles *)
    simpl. unfold read_settles.
    destruct (reading s) eqn:Hreading; [|split_and!; [done|lia|done]].
    destruct (Hwaits Hreading) as (c & r & q & Hm & Hclosed). rewrite Hm.
    rewrite pending_cons.
    (* what follows the task, from a state [s0] that tells the story *)
    assert (∀ s0 k,
              created_once roomId s0 →
              length (settled roomId (trace s0)) =
                length (settled roomId (trace s)) + k →
              k = (if String.eqb r roomId then 1 else 0) →
              (JsMap.get roomId (rooms s) = None → r ≠ roomId →
               JsMap.get roomId (rooms s0) = None) →
              created_once roomId (run_chain q s0) ∧
              length (settled roomId (trace s)) + (k + pending roomId q) + 0 =
                length (settled roomId (trace (run_chain q s0))) +
                pending roomId (mutex (run_chain q s0)) ∧
              (JsMap.get roomId (rooms s) = None →
               k + pending roomId q = 0 → false = false →
               JsMap.get roomId (rooms (run_chain q s0)) = None)) as Hgo.
    { intros s0 k Hco0 Hlen0 Hk Hnone0.
      destruct (run_chain_created roomId q s0 Hco0) as [Hco1 Hlen1].
      split_and!; [done|lia|].
      intros Hnone Hzero _. destruct (run_chain_frame q s0) as [-> _].
      apply Hnone0; [done|]. intros ->. rewrite String.eqb_refl in Hk. lia. }
    assert (∀ s0 err, rooms s0 = rooms s → store s0 = store s →
              constructed roomId (trace s0) = constructed roomId (trace s) →
              settled roomId (trace s0) = settled roomId (trace s) →
              r ≠ roomId →
              created_once roomId (run_chain q (settle c r (Some err) s0)) ∧
              length (settled roomId (trace s)) +
                ((if String.eqb r roomId then 1 else 0) + pending roomId q) + 0 =
                length (settled roomId
                          (trace (run_chain q (settle c r (Some err) s0)))) +
                pending roomId (mutex (run_chain q (settle c r (Some err) s0))) ∧
              (JsMap.get roomId (rooms s) = None →
               (if String.eqb r roomId then 1 else 0) + pending roomId q = 0 →
               false = false →
               JsMap.get roomId
                 (rooms (run_chain q (settle c r (Some err) s0))) = None))
      as Hfails.
    { intros s0 err Hr0 Hst0 Hc0 Hs0 Hne.
      destruct (settle_other roomId c r (Some err) s0 Hne) as [Hco1 Hs1].
      { by apply (created_once_ext roomId s). }
      apply Hgo; [done| |done|].
      - rewrite Hs1, Hs0. by apply String.eqb_neq in Hne as ->.
      - intros Hnone _. destruct (settle_frame c r (Some err) s0) as (-> & _).
        by rewrite Hr0. }
    assert ((∃ error, restoration outcome = Throw error) → r ≠ roomId) as Hne.
    { intros [error Hfail] ->. simpl in Hund.
      rewrite Hm, String.eqb_refl in Hund.
      by rewrite Hfail in Hund. }
    destruct (readSnapshotIfExists outcome) as [initial|err] eqn:Hread.
    + destruct (construct r initial s) as [s1|err] eqn:Hs1.
      * destruct (construct_Ok new_TLSocketRoom r initial s s1 Hs1)
          as (d & Hnew & Hr1 & Hst1 & Ht1 & _).
        destruct (String.eqb_spec r roomId) as [->|Hner].
        -- (* the engine for [roomId] is made here *)
           assert (JsMap.get roomId (rooms s) = None) as Hnone.
           { unfold created_once in Hco.
             destruct (JsMap.get roomId (rooms s)); [|done].
             destruct Hco as (Hopen & _). congruence. }
           unfold created_once in Hco. rewrite Hnone in Hco.
           destruct Hco as [Hc Hs].
           assert (JsMap.get roomId (rooms s1) = Some (length (store s))) as Hget1.
           { by rewrite Hr1, JsMapFacts.get_set_eq. }
           assert (room_open roomId s1 = true) as Hopen1.
           { unfold room_open. rewrite Hget1, Hst1.
             by rewrite lookup_app_r, Nat.sub_diag. }
           assert (created_once roomId s1) as Hco1.
           { unfold created_once. rewrite Hget1, Ht1.
             rewrite constructed_app, settled_app, Hc, Hs. simpl.
             rewrite String.eqb_refl. by split_and!. }
           destruct (created_once_answer roomId c roomId s1 Hopen1 Hco1)
             as [Hco2 Hlen2].
           rewrite String.eqb_refl in Hlen2.
           apply Hgo; [done| |done|done].
           rewrite Hlen2, Ht1, settled_app. simpl. by rewrite app_nil_r.
        -- (* an engine for another room *)
           assert (created_once roomId s1) as Hco1.
           { apply (created_once_keep roomId s); [| | | |done].
             - intros Hnone. by rewrite Hr1, JsMapFacts.get_set_ne.
             - intros h Hget Hopen.
               assert (JsMap.get roomId (rooms s1) = Some h) as Hget1
                 by by rewrite Hr1, JsMapFacts.get_set_ne.
               split; [done|].
               destruct (room_open_Some roomId s h Hget Hopen) as (rs & Hrs & Hcl).
               unfold room_open. rewrite Hget1, Hst1.
               rewrite (lookup_app_l_Some _ _ _ _ Hrs). by rewrite Hcl.
             - rewrite Ht1, constructed_app. simpl.
               apply String.eqb_neq in Hner as ->. by rewrite app_nil_r.
             - rewrite Ht1, settled_app. simpl. by rewrite app_nil_r. }
           destruct (settle_other roomId c r None s1 Hner Hco1) as [Hco2 Hs2].
           apply Hgo; [done| |done|].
           ++ rewrite Hs2, Ht1, settled_app. simpl. rewrite app_nil_r. lia.
           ++ intros Hnone _. destruct (settle_frame c r None s1) as (-> & _).
              by rewrite Hr1, JsMapFacts.get_set_ne.
      * apply construct_Throw in Hs1.
        apply Hfails; [done|done| | |].
        -- simpl. by rewrite constructed_app, app_nil_r.
        -- simpl. by rewrite settled_app, app_nil_r.
        -- apply Hne. exists err. unfold Rooms.restoration. by rewrite Hread, Hs1.
    + apply Hfails; [done|done| | |].
      * simpl. by rewrite !constructed_app, !app_nil_r.
      * simpl. by rewrite !settled_app, !app_nil_r.
      * apply Hne. exists err. unfold Rooms.restoration. by rewrite Hread.
Qed.

(** *** A room id that was never asked for *)

Lemma never_called roomId history :
  called roomId history = 0 →
  let s := run history init in
  created_once roomId s ∧
  length (settled roomId (trace s)) + pending roomId (mutex s) = 0 ∧
  JsMap.get roomId (rooms s) = None.
Proof.
  induction history as [|e history IH] using rev_ind; intros Hzero.
  - by split_and!.
  - rewrite called_snoc in Hzero.
    assert (is_call roomId e = false) as He.
    { destruct (is_call roomId e); [lia|done]. }
    destruct IH as (Hco & Hlen & Hnone); [lia|].
    rewrite run_snoc. set (s := run history init) in *.
    assert (undisturbed roomId s e = true) as Hund.
    { destruct e as [r|outcome| |h0 d|h0 sid n|n ok]; simpl; try done.
      - destruct (mutex s) as [|[c r] q] eqn:Hm; [done|].
        rewrite pending_cons in Hlen. destruct (String.eqb r roomId); [lia|done].
      - rewrite Hnone, bool_decide_eq_false_2 by done. by rewrite andb_false_r. }
    destruct (chain_accounts new_TLSocketRoom history) as (_ & _ & Hidle).
    destruct (step_created_once roomId s e 0) as (H1 & H2 & H3);
      [apply registry_ok_run|apply chain_waits_run|done|done|lia|done|].
    rewrite He in H2.
    split_and!; [done|lia|]. apply H3; [done|lia|done].
Qed.

Lemma undisturbed_creation roomId history burst :
  called roomId history = 0 →
  undisturbed_run roomId (run history init) burst = true →
  let s := run burst (run history init) in
  created_once roomId s ∧
  called roomId burst =
    length (settled roomId (trace s)) + pending roomId (mutex s).
Proof.
  intros Hzero.
  induction burst as [|e burst IH] using rev_ind; intros Hund.
  - destruct (never_called roomId history Hzero) as (Hco & Hlen & _).
    split; [done|]. simpl. unfold called. simpl. lia.
  - rewrite undisturbed_run_snoc in Hund.
    apply andb_true_iff in Hund as [Hund He].
    destruct (IH Hund) as [Hco Hlen]. rewrite run_snoc.
    rewrite <-run_app in *. set (s := run (history ++ burst) init) in *.
    destruct (chain_accounts new_TLSocketRoom (history ++ burst)) as (_ & _ & Hidle).
    destruct (step_created_once roomId s e (called roomId burst))
      as (H1 & H2 & _);
      [apply registry_ok_run|apply chain_waits_run|done..|].
    split; [done|]. by rewrite called_snoc.
Qed.

Lemma run_chain_shortens q s : length (mutex (run_chain q s)) ≤ length q.
Proof.
  revert s. induction q as [|[c r] q IH]; intros s; cbn [run_chain]; [done|].
  destruct (room_open r s); [|done].
  etrans; [apply IH|]. cbn [length]. lia.
Qed.

(** C1. Take any run of the module, in which rooms may have been created,
    closed and reaped and creations may have failed, but in which [roomId]
    was never asked for; and let it go on with calls for any room, settled
    reads, ticks, document changes, settled writes and session removals, in
    any order, as long as the creation of [roomId] is not disturbed: the
    restoration succeeds when the read of a task for [roomId] settles, and
    the engine registered for [roomId] does not lose its last session. Then
    at every moment: at most one engine has been constructed for [roomId];
    every caller answered for it was given that engine, which is the one
    registered; every call for it is either answered or queued on the chain;
    the chain is empty whenever no read is in flight; and a read that
    settles takes at least the oldest task off the chain. Moreover, when the
    read of the oldest task for [roomId] settles, exactly one engine has
    been constructed for [roomId], it is registered and open, and the
    caller of that task is answered with it; if the tasks queued behind it
    are all for [roomId], the chain is then idle and each of the calls for
    [roomId] has been answered with that same engine. *)
Theorem getOrCreateRoom_constructs_once history burst roomId :
  called roomId history = 0 →
  let s0 := run history init in
  undisturbed_run roomId s0 burst = true →
  let s := run burst s0 in
  length (constructed roomId (trace s)) ≤ 1 ∧
  (∀ outcome, outcome ∈ settled roomId (trace s) →
     ∃ h, outcome = Ok h ∧ constructed roomId (trace s) = [h] ∧
          JsMap.get roomId (rooms s) = Some h) ∧
  called roomId burst =
    length (settled roomId (trace s)) + pending roomId (mutex s) ∧
  (reading s = false → mutex s = []) ∧
  (∀ outcome, reading s = true →
     length (mutex (step s (ReadSettles outcome))) < length (mutex s)) ∧
  (∀ caller q outcome initialSnapshot d,
     reading s = true → mutex s = (caller, roomId) :: q →
     restoration outcome = Ok (initialSnapshot, d) →
     let s' := step s (ReadSettles outcome) in
     let h := length (store s) in
     constructed roomId (trace s') = [h] ∧
     JsMap.get roomId (rooms s') = Some h ∧
     store s' !! h =
       Some {| room := {| closed := false; document := d |};
               id := roomId; needsPersist := false |} ∧
     Settle caller roomId (Ok h) ∈ trace s' ∧
     (Forall (λ task, task.2 = roomId) q →
        reading s' = false ∧ mutex s' = [] ∧
        settled roomId (trace s') = replicate (called roomId burst) (Ok h))).
Proof.
  intros Hzero s0 Hund s.
  destruct (undisturbed_creation roomId history burst Hzero Hund) as [Hco Hlen].
  fold s0 s in Hco, Hlen.
  assert (s = run (history ++ burst) init) as Hs by by rewrite run_app.
  destruct (chain_accounts new_TLSocketRoom (history ++ burst)) as (_ & _ & Hidle).
  pose proof (chain_waits_run new_TLSocketRoom (history ++ burst)) as Hwaits.
  pose proof (registry_ok_run new_TLSocketRoom (history ++ burst)) as Hok.
  rewrite <-Hs in Hidle, Hwaits, Hok.
  split_and!.
  - unfold created_once in Hco. destruct (JsMap.get roomId (rooms s)).
    + destruct Hco as (_ & -> & _). simpl. lia.
    + destruct Hco as (-> & _). simpl. lia.
  - intros outcome Hin. unfold created_once in Hco.
    destruct (JsMap.get roomId (rooms s)) as [h|].
    + destruct Hco as (_ & Hc & Hall). exists h. split_and!; [|done..].
      by apply (proj1 (Forall_forall _ _) Hall).
    + destruct Hco as (_ & Hnone). rewrite Hnone in Hin.
      by apply elem_of_nil in Hin.
  - done.
  - done.
  - intros outcome Hreading.
    destruct (Hwaits Hreading) as (c & r & q & Hm & _).
    simpl. unfold read_settles. rewrite Hreading, Hm.
    assert (∀ t : State Snapshot,
              length (mutex (run_chain q t)) < length ((c, r) :: q)) as Hshort.
    { intros t. pose proof (run_chain_shortens q t). simpl. lia. }
    destruct (readSnapshotIfExists outcome) as [initial|];
      [destruct (Rooms.construct _ r initial s)|]; apply Hshort.
  - intros caller q outcome initial d Hreading Hm Hres s' h.
    destruct (Hwaits Hreading) as (c' & r' & q' & Hm' & Hclosed).
    rewrite Hm in Hm'. injection Hm' as <- <- <-.
    assert (undisturbed roomId s (ReadSettles outcome) = true) as Hund1.
    { simpl. by rewrite Hm, String.eqb_refl, Hres. }
    destruct (step_created_once roomId s (ReadSettles outcome)
                (called roomId burst) Hok Hwaits Hidle Hco Hlen Hund1)
      as (Hco' & Hlen' & _).
    fold s' in Hco', Hlen'. simpl in Hlen'.
    destruct (read_settles_succeeds new_TLSocketRoom s caller roomId q
                outcome initial d Hreading Hm Hres)
      as (s1 & Hs' & Hr1 & Hst1 & _ & Ht1).
    fold s' h in Hs', Hr1, Ht1.
    destruct (run_chain_frame q s1) as [Hrooms Hstore].
    destruct (run_chain_trace q s1) as (rest & Htrace & Hrest).
    assert (JsMap.get roomId (rooms s') = Some h) as Hget'.
    { by rewrite Hs', Hrooms, Hr1, JsMapFacts.get_set_eq. }
    assert (store s' !! h =
              Some {| room := {| closed := false; document := d |};
                      id := roomId; needsPersist := false |}) as Hnew.
    { rewrite Hs', Hstore, Hst1. unfold h. by rewrite lookup_app_r, Nat.sub_diag. }
    unfold created_once in Hco'. rewrite Hget' in Hco'.
    destruct Hco' as (Hopen' & Hc' & Hall').
    split_and!; [done..| |].
    + rewrite Hs', Htrace, Ht1. apply elem_of_app. left.
      apply elem_of_app. right. right. left.
    + intros Hours.
      destruct (run_chain_open_prefix q [] s1) as (s2 & answers & Hrun & _).
      { eapply Forall_impl; [done|]. intros [c r]. simpl. intros ->.
        unfold room_open. rewrite Hr1, JsMapFacts.get_set_eq, Hst1.
        unfold h. by rewrite lookup_app_r, Nat.sub_diag. }
      rewrite app_nil_r in Hrun. rewrite Hrun in Hs'. cbn [run_chain] in Hs'.
      assert (mutex s' = []) as Hempty by by rewrite Hs'.
      split_and!; [by rewrite Hs'|done|].
      rewrite Hempty in Hlen'. unfold pending in Hlen'. simpl in Hlen'.
      rewrite (Forall_eq_replicate _ _ Hall'). f_equal. lia.
Qed.

End Facts.
End RoomsBurst.

Module RoomsBurstExamples.
Import Rooms RoomsSpec RoomsBurst Scenario.

(** C1 at three calls for a new room that arrive after another room has been
    created, abandoned and reaped, with a tick in between. *)
Lemma getOrCreateRoom_constructs_once_witness :
  let history := [Call "old"; ReadSettles no_such_file;
                  SessionRemoved 0 "x" 0; Tick] in
  let burst := [Call "r"; Call "r"; Tick; Call "r"] in
  called "r" history = 0 ∧
  undisturbed_run engine "r" (run engine history init) burst = true ∧
  let s := run engine burst (run engine history init) in
  reading s = true ∧ mutex s = [(1, "r"); (2, "r"); (3, "r")] ∧
  restoration engine no_such_file = Ok (None, "") ∧
  let s' := step engine s (ReadSettles no_such_file) in
  constructed "r" (trace s') = [1] ∧
  JsMap.get "r" (rooms s') = Some 1 ∧
  reading s' = false ∧ mutex s' = [] ∧
  settled "r" (trace s') = [Ok 1; Ok 1; Ok 1].
Proof.
  intros history burst.
  assert (called "r" history = 0) as Hzero by (vm_compute; reflexivity).
  assert (undisturbed_run engine "r" (run engine history init) burst = true)
    as Hund by (vm_compute; reflexivity).
  split_and!; [exact Hzero|exact Hund|].
  intros s.
  assert (reading s = true) as Hreading by (vm_compute; reflexivity).
  assert (mutex s = [(1, "r"); (2, "r"); (3, "r")]) as Hmutex
    by (vm_compute; reflexivity).
  assert (restoration engine no_such_file = Ok (None, "")) as Hres
    by (vm_compute; reflexivity).
  split_and!; [exact Hreading|exact Hmutex|exact Hres|].
  destruct (getOrCreateRoom_constructs_once engine history burst "r" Hzero Hund)
    as (_ & _ & _ & _ & _ & Hprogress).
  destruct (Hprogress 1 [(2, "r"); (3, "r")] no_such_file None ""
              Hreading Hmutex Hres) as (H1 & H2 & _ & _ & H5).
  destruct H5 as (H6 & H7 & H8); [by repeat constructor|].
  intros s'. split_and!; [exact H1|exact H2|exact H6|exact H7|exact H8].
Defined.

End RoomsBurstExamples.

(** ** Further properties of [SyncRoom] *)

Module SyncCoreMore.
Import SyncCore SyncCoreSpec.

Section Facts.
Context {Presence : Type}.
Implicit Types (w : World Presence) (k : SyncSocket) (sid : string).

Lemma set_absent {V} key (v : V) (m : JsMap.t V) :
  JsMap.get key m = None → JsMap.set key v m = m ++ [(key, v)].
Proof.
  induction m as [|[k' v'] m IH]; simpl; [done|].
  destruct (String.eqb key k'); [done|]. intros Hnone. by rewrite IH.
Qed.

Lemma connect_effects sid k w :
  ∃ w', connect sid k w = (Ok (), w') ∧
        sockets (this w') = JsMap.set sid k (sockets (this w)) ∧
        presence (this w') = presence (this w) ∧
        hooks (this w') = hooks (this w) ∧
        heap w' = heap w ∧ down w' = down w ∧
        messageHandlers w' = messageHandlers w ++ [(k, sid)] ∧
        closeHandlers w' = closeHandlers w ++ [(k, sid)] ∧
        sends (log w') = sends (log w).
Proof.
  unfold connect, bind, effect. simpl. set (w1 := with_sockets _ w).
  destruct (call_hook_ok onJoin (Joined sid) w1)
    as (w2 & -> & (Ht & Hh & Hd & Hm & Hc) & Hs); [done|].
  simpl. eexists; split; [done|]. simpl. by rewrite Ht, Hh, Hd, Hm, Hc, Hs.
Qed.

Lemma on_close_effects sid w :
  ∃ w', on_close sid w = (Ok (), w') ∧
        sockets (this w') = JsMap.delete sid (sockets (this w)) ∧
        presence (this w') = presence (this w) ∧
        heap w' = alter (JsMap.delete sid) (presence (this w)) (heap w) ∧
        down w' = down w.
Proof.
  unfold on_close, bind, effect. simpl.
  set (w1 := with_heap _ (with_sockets _ w)).
  destruct (call_hook_ok onLeave (Left sid) w1)
    as (w2 & -> & (Ht & Hh & Hd & _) & _); [done|].
  eexists; split; [done|]. by rewrite Ht, Hh, Hd.
Qed.

(** The presence stored for a session, as [getPresence] reads it. *)
Lemma getPresence_alter_delete sid sid' w w' :
  presence (this w') = presence (this w) →
  heap w' = alter (JsMap.delete sid') (presence (this w)) (heap w) →
  (getPresence sid w').1 =
  if bool_decide (sid' = sid) then Ok None else (getPresence sid w).1.
Proof.
  intros Hp Hh. unfold getPresence. simpl.
  rewrite Hp, Hh, list_lookup_alter_eq.
  destruct (heap w !! presence (this w)) as [m|]; simpl; [|by case_bool_decide].
  case_bool_decide as Heq.
  - subst. by rewrite JsMapFacts.get_delete_eq.
  - by rewrite JsMapFacts.get_delete_ne.
Qed.

Lemma run_close_handlers hs k w :
  ∃ w', run_handlers hs k on_close w = (Ok (), w') ∧
        down w' = down w ∧
        ∀ sid,
          JsMap.get sid (sockets (this w')) =
            (if bool_decide ((k, sid) ∈ hs) then None
             else JsMap.get sid (sockets (this w))) ∧
          (getPresence sid w').1 =
            (if bool_decide ((k, sid) ∈ hs) then Ok None
             else (getPresence sid w).1).
Proof.
  revert w. induction hs as [|[k' sid'] hs IH]; intros w; cbn [run_handlers].
  - exists w. split_and!; [done..|]. intros sid.
    split; try done;
      (case_bool_decide as Hin; [by apply elem_of_nil in Hin|done]).
  - destruct (Nat.eqb_spec k k') as [<-|Hne].
    + unfold bind at 1.
      destruct (on_close_effects sid' w) as (w1 & -> & Hs1 & Hp1 & Hh1 & Hd1).
      destruct (IH w1) as (w' & -> & Hd & Hall).
      exists w'. split_and!; [done|congruence|]. intros sid.
      destruct (Hall sid) as [-> ->].
      rewrite (getPresence_alter_delete sid sid' w w1 Hp1 Hh1), Hs1.
      destruct (decide (sid' = sid)) as [->|Hsid].
      * rewrite (bool_decide_eq_true_2 ((k, sid) ∈ (k, sid) :: hs)) by left.
        rewrite JsMapFacts.get_delete_eq, (bool_decide_eq_true_2 (sid = sid))
          by done.
        split; by case_bool_decide.
      * rewrite JsMapFacts.get_delete_ne, (bool_decide_eq_false_2 (sid' = sid))
          by done.
        assert ((k, sid) ∈ (k, sid') :: hs ↔ (k, sid) ∈ hs) as Hiff.
        { rewrite elem_of_cons. split; [|by right]. by intros [[= ->]|?]. }
        by rewrite (bool_decide_ext _ _ Hiff).
    + destruct (IH w) as (w' & -> & Hd & Hall).
      exists w'. split_and!; [done..|]. intros sid.
      assert ((k, sid) ∈ (k', sid') :: hs ↔ (k, sid) ∈ hs) as Hiff.
      { rewrite elem_of_cons. split; [|by right]. by intros [[= -> ->]|?]. }
      rewrite (bool_decide_ext _ _ Hiff). apply Hall.
Qed.

(** X9. [connect] for a session id that is not attached adds it after all
    attached sessions, which keep their sockets and their order; the room's
    presence data is untouched and nothing is sent. *)
Theorem connect_new_session w sid k :
  JsMap.get sid (sockets (this w)) = None →
  ∃ w',
    connect sid k w = (Ok (), w') ∧
    sockets (this w') = sockets (this w) ++ [(sid, k)] ∧
    messageHandlers w' = messageHandlers w ++ [(k, sid)] ∧
    closeHandlers w' = closeHandlers w ++ [(k, sid)] ∧
    heap w' = heap w ∧
    sends (log w') = sends (log w).
Proof.
  intros Hnone.
  destruct (connect_effects sid k w)
    as (w' & Hrun & Hs & _ & _ & Hh & _ & Hm & Hc & Hl).
  exists w'. rewrite Hs, (set_absent _ _ _ Hnone). by split_and!.
Qed.

Lemma socket_close_effects w k :
  ∃ w',
    socket_close k w = (Ok (), w') ∧
    down w' = k :: down w ∧
    ∀ sid,
      JsMap.get sid (sockets (this w')) =
        (if bool_decide ((k, sid) ∈ closeHandlers w) then None
         else JsMap.get sid (sockets (this w))) ∧
      (getPresence sid w').1 =
        (if bool_decide ((k, sid) ∈ closeHandlers w) then Ok None
         else (getPresence sid w).1).
Proof.
  unfold socket_close.
  destruct (run_close_handlers (closeHandlers w) k (transport_closes k w))
    as (w' & Hrun & Hd & Hall).
  exists w'. split_and!; [done..|]. intros sid. apply Hall.
Qed.

(** X10. When a socket closes, every session id that socket was connected
    under is removed from the registry and loses its presence, whichever
    socket is registered under that id by then; every other session id keeps
    its socket and its presence. The close handlers never throw. *)
Theorem socket_close_detaches w k :
  ∃ w',
    socket_close k w = (Ok (), w') ∧
    down w' = k :: down w ∧
    ∀ sid,
      JsMap.get sid (sockets (this w')) =
        (if bool_decide ((k, sid) ∈ closeHandlers w) then None
         else JsMap.get sid (sockets (this w))) ∧
      (getPresence sid w').1 =
        (if bool_decide ((k, sid) ∈ closeHandlers w) then Ok None
         else (getPresence sid w).1).
Proof. apply socket_close_effects. Qed.

(** X11. The hazard of connecting a session id twice: after a second
    [connect] under the same id, the close of the first socket detaches the
    id although the socket now registered for it is the second one, whose
    transport is not affected. *)
Theorem close_of_first_socket_detaches_second w sid (k1 k2 : SyncSocket) :
  let w2 := (connect sid k2 (connect sid k1 w).2).2 in
  JsMap.get sid (sockets (this w2)) = Some k2 ∧
  ∃ w3,
    socket_close k1 w2 = (Ok (), w3) ∧
    JsMap.get sid (sockets (this w3)) = None ∧
    down w3 = k1 :: down w.
Proof.
  intros w2.
  destruct (connect_effects sid k1 w) as (w1 & Hrun1 & Hs1 & _ & _ & _ & Hd1 & _ & Hc1 & _).
  destruct (connect_effects sid k2 w1) as (w2' & Hrun2 & Hs2 & _ & _ & _ & Hd2 & _ & Hc2 & _).
  assert (w2 = w2') as ->
    by (unfold w2; rewrite Hrun1; simpl; by rewrite Hrun2).
  split; [rewrite Hs2; apply JsMapFacts.get_set_eq|].
  destruct (socket_close_effects w2' k1) as (w3 & Hrun & Hd & Hall).
  exists w3. split_and!; [done| |congruence].
  destruct (Hall sid) as [-> _]. rewrite bool_decide_eq_true_2; [done|].
  rewrite Hc2, Hc1. apply elem_of_app. left. apply elem_of_app. right. left.
Qed.

Lemma run_handlers_none hs k (handler : string → M Presence unit) w :
  filter (λ p, p.1 = k) hs = [] → run_handlers hs k handler w = (Ok (), w).
Proof.
  induction hs as [|[k' sid'] hs IH]; cbn [run_handlers]; [done|].
  rewrite filter_cons. simpl.
  destruct (Nat.eqb_spec k k') as [<-|Hne].
  - by rewrite decide_True.
  - rewrite decide_False by done. apply IH.
Qed.

Lemma run_handlers_single hs k sid (handler : string → M Presence unit) w :
  filter (λ p, p.1 = k) hs = [(k, sid)] →
  run_handlers hs k handler w = handler sid w.
Proof.
  induction hs as [|[k' sid'] hs IH]; cbn [run_handlers]; [done|].
  rewrite filter_cons. simpl.
  destruct (Nat.eqb_spec k k') as [<-|Hne].
  - rewrite decide_True by done. intros [= -> Hrest]. unfold bind.
    destruct (handler sid w) as [[[]|err] w1]; [|done].
    by apply run_handlers_none.
  - rewrite decide_False by done. apply IH.
Qed.

Lemma call_hook_on (h : RoomHooks → bool) (eff : Effect Presence) hs w :
  hooks (this w) = Some hs → h hs = true →
  call_hook h eff w = (Ok (), emit eff w).
Proof. intros Hh Hon. unfold call_hook. by rewrite Hh, Hon. Qed.

(** What an audited delivery leaves in the record of effects. *)
Lemma broadcast_loop_audited entries from msg hs w :
  hooks (this w) = Some hs → onBroadcast hs = true →
  (∀ sid k, (sid, k) ∈ entries → sid ≠ from → k ∉ down w) →
  ∃ w', broadcast_loop entries from msg w = (Ok (), w') ∧
        only_log w w' ∧
        log w' =
          log w ++ (destinations from entries ≫=
                      λ kv, [Broadcasted from kv.1 msg; Send kv.2 msg]).
Proof.
  intros Hh Hon. revert w Hh.
  induction entries as [|[sid k] rest IH]; intros w Hh Hup; cbn [broadcast_loop].
  - exists w. split_and!; [done|apply only_log_refl|]. by rewrite app_nil_r.
  - unfold destinations. rewrite filter_cons. simpl.
    destruct (String.eqb_spec sid from) as [->|Hne]; simpl.
    + apply IH; [done|]. intros sid' k' Hin Hsid'. apply (Hup sid'); [by right|done].
    + unfold bind at 1. rewrite (call_hook_on onBroadcast _ hs) by done.
      unfold bind at 1. rewrite send_up; last first.
      { simpl. apply (Hup sid); [left|done]. }
      destruct (IH (emit (Send k msg) (emit (Broadcasted from sid msg) w)))
        as (w' & -> & Hlog & Hl); [done| |].
      { intros sid' k' Hin Hsid'. simpl. apply (Hup sid'); [by right|done]. }
      exists w'. split_and!; [done| |].
      * eapply only_log_trans; [|done].
        eapply only_log_trans; apply only_log_emit.
      * rewrite Hl. simpl. by rewrite <-!app_assoc.
Qed.

(** X12. A frame that arrives on a socket connected under one session id is
    passed to every other attached session and not back to the sender; what
    is passed on is the text returned by the [onMessage] hook when the hook
    is supplied and returns one (the empty string included), and the frame
    itself otherwise. *)
Theorem frame_is_relayed_to_the_others w k sid msg :
  filter (λ p, p.1 = k) (messageHandlers w) = [(k, sid)] →
  (∀ sid' k', (sid', k') ∈ sockets (this w) → sid' ≠ sid → k' ∉ down w) →
  let relayed :=
    match hooks (this w) ≫= onMessage with
    | Some f => default msg (f sid msg)
    | None => msg
    end in
  ∃ w',
    socket_message k msg w = (Ok (), w') ∧
    sends (log w') =
      sends (log w) ++ ((λ kv, (kv.2, relayed)) <$> destinations sid (sockets (this w))).
Proof.
  intros Hone Hup relayed. unfold socket_message.
  rewrite (run_handlers_single _ k sid) by done.
  assert (on_message sid msg w = broadcast sid relayed w) as ->.
  { unfold on_message, relayed. destruct (hooks (this w)) as [hs|]; [|done].
    simpl. by destruct (onMessage hs). }
  by apply broadcast_loop_all_up.
Qed.

Variable JSON_stringify : string → Presence → Result Error string.

(** X13. [updatePresence(s, data)] with the other sessions reachable stores
    [data] for [s] in every case. When [JSON.stringify] makes a text of the
    notification for [(s, data)], the call returns normally and that text
    has been sent to every other attached session, once each, and not to
    [s] itself. When [JSON.stringify] throws, the call throws the same
    error and nothing has been sent. *)
Theorem updatePresence_notifies_the_others w sid data :
  (∀ sid' k', (sid', k') ∈ sockets (this w) → sid' ≠ sid → k' ∉ down w) →
  ∃ w',
    sockets (this w') = sockets (this w) ∧
    heap w' = alter (JsMap.set sid data) (presence (this w)) (heap w) ∧
    match JSON_stringify sid data with
    | Ok message =>
        updatePresence JSON_stringify sid data w = (Ok (), w') ∧
        sends (log w') =
          sends (log w) ++
            ((λ kv, (kv.2, message)) <$> destinations sid (sockets (this w)))
    | Throw error =>
        updatePresence JSON_stringify sid data w = (Throw error, w') ∧
        sends (log w') = sends (log w)
    end.
Proof.
  intros Hup. unfold updatePresence, bind, effect. simpl.
  set (w1 := with_heap _ w).
  destruct (call_hook_ok onPresenceUpdate (PresenceUpdated sid data) w1)
    as (w2 & -> & (Ht & Hh & Hd & _) & Hs); [done|].
  destruct (JSON_stringify sid data) as [message|error].
  - destruct (broadcast_loop_all_up (sockets (this w2)) sid message w2)
      as (w' & Hrun & Hsends).
    { rewrite Ht, Hd. apply Hup. }
    pose proof (broadcast_loop_only_log (sockets (this w2)) sid message w2)
      as Hlog.
    unfold broadcast. rewrite Hrun in Hlog |- *. simpl in Hlog.
    destruct Hlog as (Ht' & Hh' & _).
    exists w'. split_and!; [| |done|].
    + by rewrite Ht', Ht.
    + by rewrite Hh', Hh.
    + by rewrite Hsends, Hs, Ht.
  - exists w2. split_and!; [by rewrite Ht|by rewrite Hh|done|done].
Qed.

(** X14. With an [onBroadcast] hook supplied and every destination
    reachable, [broadcast] adds to the record of effects, for each
    destination in the registry's order, the call of the hook for that
    destination immediately followed by the send to it, and nothing else. *)
Theorem broadcast_audits_each_delivery w hs from msg :
  hooks (this w) = Some hs → onBroadcast hs = true →
  (∀ sid k, (sid, k) ∈ sockets (this w) → sid ≠ from → k ∉ down w) →
  ∃ w',
    broadcast from msg w = (Ok (), w') ∧
    log w' =
      log w ++ (destinations from (sockets (this w)) ≫=
                  λ kv, [Broadcasted from kv.1 msg; Send kv.2 msg]).
Proof.
  intros Hh Hon Hup.
  destruct (broadcast_loop_audited (sockets (this w)) from msg hs w Hh Hon Hup)
    as (w' & Hrun & _ & Hlog).
  by exists w'.
Qed.

(** X15. The [onBroadcast] hook runs before the send: when the send to a
    destination throws, the hook has already been called for that
    destination, so the record ends with a delivery that did not happen. *)
Theorem failed_delivery_is_audited_all_the_same w hs pre sid k post from msg :
  hooks (this w) = Some hs → onBroadcast hs = true →
  sockets (this w) = pre ++ (sid, k) :: post →
  sid ≠ from → k ∈ down w →
  (∀ sid' k', (sid', k') ∈ pre → sid' ≠ from → k' ∉ down w) →
  ∃ w',
    broadcast from msg w = (Throw (TransportError k), w') ∧
    log w' =
      log w ++ (destinations from pre ≫=
                  λ kv, [Broadcasted from kv.1 msg; Send kv.2 msg]) ++
        [Broadcasted from sid msg].
Proof.
  intros Hh Hon Hsock Hne Hdown Hpre. unfold broadcast.
  rewrite Hsock, broadcast_loop_app. unfold bind at 1.
  destruct (broadcast_loop_audited pre from msg hs w Hh Hon Hpre)
    as (w1 & -> & (Ht & _ & Hd & _) & Hlog).
  cbn [broadcast_loop].
  destruct (String.eqb_spec sid from) as [?|_]; [done|].
  unfold bind at 1. rewrite (call_hook_on onBroadcast _ hs); [|by rewrite Ht|done].
  unfold bind at 1. rewrite send_down by (simpl; by rewrite Hd).
  eexists; split; [done|]. simpl. by rewrite Hlog, <-app_assoc.
Qed.

(** X20. With every destination reachable, [broadcast] returns normally and
    sends the message once to the socket of every attached session other
    than the sender, in the order in which the sessions were attached, and
    to no one else, however many sessions there are. *)
Theorem broadcast_reaches_every_other_session w from msg :
  (∀ sid k, (sid, k) ∈ sockets (this w) → sid ≠ from → k ∉ down w) →
  ∃ w',
    broadcast from msg w = (Ok (), w') ∧
    sends (log w') =
      sends (log w) ++ ((λ kv, (kv.2, msg)) <$> destinations from (sockets (this w))).
Proof. intros Hup. by apply broadcast_loop_all_up. Qed.

(** X21. Two broadcasts from the same sender, one after the other, reach
    the same destinations, and every destination is sent the first message
    before the second. *)
Theorem consecutive_broadcasts_keep_their_order w from msg1 msg2 :
  (∀ sid k, (sid, k) ∈ sockets (this w) → sid ≠ from → k ∉ down w) →
  ∃ w1 w2,
    broadcast from msg1 w = (Ok (), w1) ∧
    broadcast from msg2 w1 = (Ok (), w2) ∧
    sends (log w2) =
      sends (log w) ++
        ((λ kv, (kv.2, msg1)) <$> destinations from (sockets (this w))) ++
        ((λ kv, (kv.2, msg2)) <$> destinations from (sockets (this w))).
Proof.
  intros Hup. unfold broadcast.
  pose proof (broadcast_loop_only_log (sockets (this w)) from msg1 w) as Hlog.
  destruct (broadcast_loop_all_up (sockets (this w)) from msg1 w Hup)
    as (w1 & Hrun1 & Hs1).
  rewrite Hrun1 in Hlog. simpl in Hlog. destruct Hlog as (Ht & _ & Hd & _).
  destruct (broadcast_loop_all_up (sockets (this w1)) from msg2 w1)
    as (w2 & Hrun2 & Hs2).
  { rewrite Ht, Hd. apply Hup. }
  exists w1, w2. split_and!; [done..|].
  by rewrite Hs2, Hs1, Ht, <-app_assoc.
Qed.

End Facts.
End SyncCoreMore.

(** ** Properties of the first, synchronous registry *)

Module LegacyRoomsSpec.
Import LegacyRooms.

Section Facts.
Variable inherited : string → bool.
Implicit Types (s : State) (roomId : string).

Local Abbreviation lookup := (lookup inherited).
Local Abbreviation getOrCreateRoom := (getOrCreateRoom inherited).
Local Abbreviation calls := (calls inherited).

Lemma calls_snoc roomIds roomId s :
  calls (roomIds ++ [roomId]) s = (getOrCreateRoom roomId (calls roomIds s)).2.
Proof. unfold LegacyRooms.calls. by rewrite foldl_app. Qed.

(** The registry after any sequence of calls. *)
Lemma calls_invariant roomIds :
  let s := calls roomIds init in
  engines s = length (rooms s) ∧
  NoDup (JsMap.keys (rooms s)) ∧
  ∀ roomId, is_Some (JsMap.get roomId (rooms s)) ↔
            roomId ∈ roomIds ∧ inherited roomId = false.
Proof.
  induction roomIds as [|r roomIds IH] using rev_ind.
  - simpl. split_and!; [done|constructor|]. intros roomId. split.
    + by intros [? [=]].
    + by intros [?%elem_of_nil _].
  - rewrite calls_snoc. destruct IH as (Hlen & Hnd & Hdom).
    set (s := calls roomIds init) in *.
    unfold LegacyRooms.getOrCreateRoom, LegacyRooms.lookup. simpl.
    destruct (JsMap.get r (rooms s)) as [h|] eqn:Hget; simpl.
    + split_and!; [done..|]. intros roomId. rewrite Hdom, elem_of_app.
      split; [intros [? ?]; split; [by left|done]|].
      intros [[?|Heq%list_elem_of_singleton] ?]; [done|]. subst roomId.
      apply Hdom. by eexists.
    + destruct (inherited r) eqn:Hinh; simpl.
      * split_and!; [done..|]. intros roomId. rewrite Hdom, elem_of_app.
        split; [intros [? ?]; split; [by left|done]|].
        intros [[?|Heq%list_elem_of_singleton] ?]; [done|congruence].
      * split_and!.
        -- rewrite (SyncCoreMore.set_absent _ _ _ Hget), length_app. simpl. lia.
        -- by apply JsMapFacts.NoDup_keys_set.
        -- intros roomId. rewrite elem_of_app, list_elem_of_singleton.
           destruct (decide (r = roomId)) as [->|Hne].
           ++ rewrite JsMapFacts.get_set_eq. split; [by auto|by eexists].
           ++ rewrite JsMapFacts.get_set_ne, Hdom by done.
              split; [intros [? ?]; split; [by left|done]|].
              by intros [[?|?] ?].
Qed.

(** X16. For a room id that is not the name of an inherited property, the
    synchronous [getOrCreateRoom] returns an engine; asking again returns the
    same engine and constructs nothing; at most one engine is constructed,
    and only if the id had none; what other ids lead to is unchanged. *)
Theorem legacy_getOrCreateRoom_is_idempotent s roomId :
  inherited roomId = false →
  ∃ h s1,
    getOrCreateRoom roomId s = (Some (Room h), s1) ∧
    getOrCreateRoom roomId s1 = (Some (Room h), s1) ∧
    engines s1 = engines s + (if JsMap.has roomId (rooms s) then 0 else 1) ∧
    ∀ other, other ≠ roomId → lookup other s1 = lookup other s.
Proof.
  intros Hinh. unfold LegacyRooms.getOrCreateRoom, LegacyRooms.lookup, JsMap.has.
  destruct (JsMap.get roomId (rooms s)) as [h|] eqn:Hget; simpl.
  - exists h, s. rewrite Hget. simpl. rewrite Hget. split_and!; [done..|lia|done].
  - rewrite Hinh. simpl. rewrite JsMapFacts.get_set_eq.
    eexists _, _. split; [done|]. simpl. rewrite JsMapFacts.get_set_eq. simpl.
    rewrite JsMapFacts.get_set_eq. split_and!; [done|lia|].
    intros other Hne. by rewrite JsMapFacts.get_set_ne.
Qed.

(** X17. Over any sequence of calls from the empty registry, the number of
    engines constructed is the number of distinct room ids asked for that
    are not names of inherited properties. *)
Theorem legacy_registry_constructs_once_per_id roomIds :
  engines (calls roomIds init) =
  length (remove_dups (filter (λ roomId, inherited roomId = false) roomIds)).
Proof.
  destruct (calls_invariant roomIds) as (-> & Hnd & Hdom).
  rewrite <-(length_fmap fst). apply Permutation_length.
  apply NoDup_Permutation; [done|apply NoDup_remove_dups|].
  intros roomId. rewrite elem_of_remove_dups, list_elem_of_filter.
  rewrite list_elem_of_fmap. split.
  - intros [[k h] [-> Hin]]. apply and_comm, Hdom. exists h.
    by apply JsMapFacts.elem_of_get.
  - intros [h Hget]%and_comm%Hdom. exists (roomId, h). split; [done|].
    by apply JsMapFacts.get_Some_elem_of.
Qed.

(** X18. For a room id that is the name of an inherited property, the
    synchronous [getOrCreateRoom] constructs nothing and returns the
    inherited value, which is not an engine, however the registry was
    used before. *)
Theorem legacy_registry_returns_inherited_value roomIds roomId :
  inherited roomId = true →
  getOrCreateRoom roomId (calls roomIds init) =
    (Some (Inherited roomId), calls roomIds init).
Proof.
  intros Hinh. destruct (calls_invariant roomIds) as (_ & _ & Hdom).
  unfold LegacyRooms.getOrCreateRoom, LegacyRooms.lookup.
  destruct (JsMap.get roomId (rooms (calls roomIds init))) as [h|] eqn:Hget.
  - destruct (proj1 (Hdom roomId)) as [_ ?]; [by eexists|congruence].
  - rewrite Hinh. simpl. by rewrite ?Hget, ?Hinh.
Qed.

End Facts.
End LegacyRoomsSpec.

(** ** Properties of the connection parameters *)

Module ServerSpec.
Import Server.

Lemma or_else_not_blank a b : b ≠ "" → or_else a b ≠ "".
Proof.
  intros Hb. unfold or_else. destruct a as [s|]; [|done].
  by destruct (String.eqb_spec s "").
Qed.

Lemma or_else_given s b : s ≠ "" → or_else (Some s) b = s.
Proof. intros Hs. unfold or_else. by destruct (String.eqb_spec s ""). Qed.

(** X19. The connection a request is given never has a blank room id, user
    or store, and no blank session id as long as the generated identifier
    is not blank. A session id in the query wins over a client id, and an
    empty value in the request counts as a missing one. *)
Theorem connection_parameters params query randomUUID :
  randomUUID ≠ "" →
  let c := connection params query randomUUID in
  connection_roomId c ≠ "" ∧ connection_sessionId c ≠ "" ∧
  connection_appUser c ≠ "" ∧ connection_storeId c ≠ "" ∧
  (∀ s, sessionId query = Some s → s ≠ "" → connection_sessionId c = s) ∧
  connection {| roomId := Some "" |}
    {| clientId := Some ""; appUser := Some ""; storeId := Some "";
       sessionId := Some "" |} randomUUID =
  connection {| roomId := None |}
    {| clientId := None; appUser := None; storeId := None;
       sessionId := None |} randomUUID.
Proof.
  intros Huuid c. unfold c, connection. simpl. split_and!.
  - by apply or_else_not_blank.
  - by apply or_else_not_blank, or_else_not_blank.
  - by apply or_else_not_blank.
  - by apply or_else_not_blank.
  - intros s -> Hs. by apply or_else_given.
  - done.
Qed.

End ServerSpec.

Module MoreExamples.
Import Scenario MoreScenario.

Section SyncCoreWitnesses.
Import SyncCore SyncCoreMore.

(** X9 at a new room. *)
Lemma connect_new_session_witness :
  JsMap.get "A" (sockets (this fresh_room)) = None ∧
  ∃ w',
    connect "A" 1 fresh_room = (Ok (), w') ∧
    sockets (this w') = sockets (this fresh_room) ++ [("A", 1)] ∧
    messageHandlers w' = messageHandlers fresh_room ++ [(1, "A")] ∧
    closeHandlers w' = closeHandlers fresh_room ++ [(1, "A")] ∧
    heap w' = heap fresh_room ∧
    sends (log w') = sends (log fresh_room).
Proof.
  split; [vm_compute; reflexivity|].
  apply (connect_new_session fresh_room "A" 1). vm_compute. reflexivity.
Defined.

(** X12 for a frame from A in the room with A, B and C. *)
Lemma frame_is_relayed_to_the_others_witness :
  filter (λ p, p.1 = 1) (messageHandlers abc) = [(1, "A")] ∧
  ∃ w',
    socket_message 1 "hello" abc = (Ok (), w') ∧
    sends (log w') =
      sends (log abc) ++
        ((λ kv, (kv.2, "hello")) <$> destinations "A" (sockets (this abc))).
Proof.
  assert (filter (λ p, p.1 = 1) (messageHandlers abc) = [(1, "A")]) as Hone
    by (vm_compute; reflexivity).
  split; [exact Hone|].
  apply (frame_is_relayed_to_the_others abc 1 "A" "hello" Hone).
  intros sid' k' _ _. apply not_elem_of_nil.
Defined.

(** X13 for A in the room with A, B and C. *)
Lemma updatePresence_notifies_the_others_witness :
  ∃ w',
    sockets (this w') = sockets (this abc) ∧
    heap w' =
      alter (JsMap.set "A" {| cursor := (1, 2) |}) (presence (this abc)) (heap abc) ∧
    updatePresence stringify "A" {| cursor := (1, 2) |} abc = (Ok (), w') ∧
    sends (log w') =
      sends (log abc) ++
        ((λ kv, (kv.2, "presence:A")) <$> destinations "A" (sockets (this abc))).
Proof.
  apply (updatePresence_notifies_the_others stringify abc "A").
  intros sid' k' _ _. apply not_elem_of_nil.
Defined.

(** X13 when the payload cannot be serialized: B and C receive nothing. *)
Example updatePresence_throws_before_sending :
  let w' := (updatePresence (λ _ _, Throw TypeError) "A"
               {| cursor := (1, 2) |} abc) in
  w'.1 = Throw TypeError ∧ sends (log w'.2) = [] ∧
  (getPresence "A" w'.2).1 = Ok (Some {| cursor := (1, 2) |}).
Proof. vm_compute. by split_and!. Qed.

(** X14 in the audited room. *)
Lemma broadcast_audits_each_delivery_witness :
  ∃ w',
    broadcast "A" "M" audited = (Ok (), w') ∧
    log w' = log audited ++
             [Broadcasted "A" "B" "M"; Send 2 "M";
              Broadcasted "A" "C" "M"; Send 3 "M"].
Proof.
  apply (broadcast_audits_each_delivery audited
           {| onJoin := false; onLeave := false; onMessage := None;
              onBroadcast := true; onPresenceUpdate := false |} "A" "M");
    [vm_compute; reflexivity|reflexivity|].
  intros sid k _ _. apply not_elem_of_nil.
Defined.

(** X15 in the audited room, with B unreachable and C sending. *)
Lemma failed_delivery_is_audited_all_the_same_witness :
  ∃ w',
    broadcast "C" "M" audited_b_down = (Throw (TransportError 2), w') ∧
    log w' = log audited_b_down ++
             [Broadcasted "C" "A" "M"; Send 1 "M"] ++ [Broadcasted "C" "B" "M"].
Proof.
  apply (failed_delivery_is_audited_all_the_same audited_b_down
           {| onJoin := false; onLeave := false; onMessage := None;
              onBroadcast := true; onPresenceUpdate := false |}
           [("A", 1)] "B" 2 [("C", 3)] "C" "M");
    [vm_compute; reflexivity|reflexivity|vm_compute; reflexivity
    |discriminate|left|].
  intros sid k [[= -> ->]|[]%elem_of_nil]%elem_of_cons _.
  intros [[=]|[]%elem_of_nil]%elem_of_cons.
Defined.

(** X20 in the room with A, B and C. *)
Lemma broadcast_reaches_every_other_session_witness :
  ∃ w',
    broadcast "B" "M" abc = (Ok (), w') ∧
    sends (log w') = sends (log abc) ++ [(1, "M"); (3, "M")].
Proof.
  apply (broadcast_reaches_every_other_session abc "B" "M").
  intros sid k _ _. apply not_elem_of_nil.
Defined.

(** X21 in the same room. *)
Lemma consecutive_broadcasts_keep_their_order_witness :
  ∃ w1 w2,
    broadcast "B" "first" abc = (Ok (), w1) ∧
    broadcast "B" "second" w1 = (Ok (), w2) ∧
    sends (log w2) =
      sends (log abc) ++ [(1, "first"); (3, "first")] ++
        [(1, "second"); (3, "second")].
Proof.
  apply (consecutive_broadcasts_keep_their_order abc "B" "first" "second").
  intros sid k _ _. apply not_elem_of_nil.
Defined.

End SyncCoreWitnesses.

Section RoomsWitnesses.
Import Rooms RoomsTrace RoomsMore.

(** X4 at the room whose document has just changed. *)
Lemma tick_leaves_no_registered_room_dirty_witness :
  let s := run engine edited init in
  JsMap.get "r" (rooms s) = Some 0 ∧
  needsPersist_at 0 s = Some true ∧
  needsPersist_at 0 (tick s) = Some false.
Proof.
  intros s.
  assert (JsMap.get "r" (rooms s) = Some 0) as Hget by (vm_compute; reflexivity).
  split_and!; [exact Hget|vm_compute; reflexivity|].
  exact (tick_leaves_no_registered_room_dirty engine edited "r" 0 Hget).
Defined.

(** X5 at the same room, which is dirty when its last session leaves. *)
Lemma last_session_then_tick_witness :
  let s := run engine edited init in
  let rs := {| room := {| closed := false; document := "d1" |};
               id := "r"; needsPersist := true |} in
  JsMap.get "r" (rooms s) = Some 0 ∧
  store s !! 0 = Some rs ∧
  let s' := tick (step engine s (SessionRemoved 0 "x" 0)) in
  writes_of 0 (trace s') =
    writes_of 0 (trace s) ++ [("r", Json "d1"); ("r", Json "d1")] ∧
  JsMap.get "r" (rooms s') = None.
Proof.
  intros s rs.
  assert (JsMap.get "r" (rooms s) = Some 0) as Hget by (vm_compute; reflexivity).
  assert (store s !! 0 = Some rs) as Hrs by (vm_compute; reflexivity).
  split_and!; [exact Hget|exact Hrs|].
  exact (last_session_then_tick engine edited "r" 0 rs "x" Hget Hrs).
Defined.

(** X6 at the room of the burst, for a fourth call. *)
Lemma open_room_is_returned_at_once_witness :
  let s := run engine burst init in
  let rs := {| room := {| closed := false; document := "" |};
               id := "r"; needsPersist := false |} in
  reading s = false ∧
  JsMap.get "r" (rooms s) = Some 0 ∧
  store s !! 0 = Some rs ∧
  let s' := step engine s (Call "r") in
  trace s' = trace s ++ [Settle 3 "r" (Ok 0)] ∧
  rooms s' = rooms s ∧ store s' = store s ∧
  reading s' = false ∧ mutex s' = [].
Proof.
  intros s rs.
  assert (reading s = false) as Hreading by (vm_compute; reflexivity).
  assert (JsMap.get "r" (rooms s) = Some 0) as Hget by (vm_compute; reflexivity).
  assert (store s !! 0 = Some rs) as Hrs by (vm_compute; reflexivity).
  split_and!; [exact Hreading|exact Hget|exact Hrs|].
  exact (open_room_is_returned_at_once engine burst "r" 0 rs Hreading Hget Hrs eq_refl).
Defined.

(** X7 at the abandoned room, whose engine is closed. *)
Lemma closed_room_is_replaced_by_a_new_engine_witness :
  let s := run engine abandoned init in
  let rs := {| room := {| closed := true; document := "d1" |};
               id := "r"; needsPersist := true |} in
  reading s = false ∧
  JsMap.get "r" (rooms s) = Some 0 ∧
  store s !! 0 = Some rs ∧
  let s' := step engine (step engine s (Call "r")) (ReadSettles (Ok (Json "d1"))) in
  trace s' = trace s ++ [ReadFile "r";
                         Construct 1 "r" (Some (SnapshotValue "d1"));
                         Settle 1 "r" (Ok 1)] ∧
  1 ≠ 0 ∧
  JsMap.get "r" (rooms s') = Some 1 ∧
  JsMap.keys (rooms s') = JsMap.keys (rooms s) ∧
  store s' !! 1 =
    Some {| room := {| closed := false; document := "d1" |};
            id := "r"; needsPersist := false |} ∧
  room_open "r" s' = true ∧
  store s' !! 0 = Some rs.
Proof.
  intros s rs.
  assert (reading s = false) as Hreading by (vm_compute; reflexivity).
  assert (JsMap.get "r" (rooms s) = Some 0) as Hget by (vm_compute; reflexivity).
  assert (store s !! 0 = Some rs) as Hrs by (vm_compute; reflexivity).
  split_and!; [exact Hreading|exact Hget|exact Hrs|].
  exact (closed_room_is_replaced_by_a_new_engine engine abandoned "r" 0 rs
           (Ok (Json "d1")) Hreading Hget Hrs eq_refl).
Defined.

(** X7 when the file of the abandoned room holds [null]: the engine of the
    example throws on it, and the registry keeps the closed engine. *)
Example closed_room_stays_when_the_engine_throws :
  let s := run engine abandoned init in
  let s' := step engine (step engine s (Call "r"))
              (ReadSettles (Ok (JsonOther "null"))) in
  trace s' = trace s ++ [ReadFile "r"; ConsoleError (MutexFailed "r");
                         Settle 1 "r" (Throw TypeError)] ∧
  rooms s' = rooms s ∧ store s' = store s ∧ room_open "r" s' = false.
Proof. vm_compute. by split_and!. Qed.

End RoomsWitnesses.

Section OtherWitnesses.
Import LegacyRooms LegacyRoomsSpec Server ServerSpec.

(** X16 for a room asked for a second time. *)
Lemma legacy_getOrCreateRoom_is_idempotent_witness :
  prototype_names "room-1" = false ∧
  let s := calls prototype_names ["room-1"; "room-2"] init in
  ∃ h s1,
    getOrCreateRoom prototype_names "room-1" s = (Some (Room h), s1) ∧
    getOrCreateRoom prototype_names "room-1" s1 = (Some (Room h), s1) ∧
    engines s1 = engines s + (if JsMap.has "room-1" (rooms s) then 0 else 1) ∧
    ∀ other, other ≠ "room-1" →
      lookup prototype_names other s1 = lookup prototype_names other s.
Proof.
  assert (prototype_names "room-1" = false) as Hown by (vm_compute; reflexivity).
  split; [exact Hown|].
  exact (legacy_getOrCreateRoom_is_idempotent prototype_names
           (calls prototype_names ["room-1"; "room-2"] init) "room-1" Hown).
Defined.

(** X18 for the room id "constructor". *)
Lemma legacy_registry_returns_inherited_value_witness :
  prototype_names "constructor" = true ∧
  getOrCreateRoom prototype_names "constructor"
    (calls prototype_names ["room-1"] init) =
  (Some (Inherited "constructor"), calls prototype_names ["room-1"] init).
Proof.
  assert (prototype_names "constructor" = true) as Hinh by (vm_compute; reflexivity).
  split; [exact Hinh|].
  exact (legacy_registry_returns_inherited_value prototype_names ["room-1"]
           "constructor" Hinh).
Defined.

(** X19 for a request that gives only a client id. *)
Lemma connection_parameters_witness :
  "6f1c" ≠ "" ∧
  let query := {| clientId := Some "tab-7"; appUser := None;
                  storeId := None; sessionId := Some "" |} in
  let c := connection {| roomId := None |} query "6f1c" in
  c = {| connection_roomId := "global-room"; connection_sessionId := "tab-7";
         connection_appUser := "anonymous";
         connection_storeId := "default-store" |} ∧
  connection_roomId c ≠ "" ∧ connection_sessionId c ≠ "".
Proof.
  assert ("6f1c" ≠ "") as Huuid by discriminate.
  split; [exact Huuid|]. intros query c. split; [vm_compute; reflexivity|].
  destruct (connection_parameters {| roomId := None |} query "6f1c" Huuid)
    as (H1 & H2 & _).
  split; [exact H1|exact H2].
Defined.

End OtherWitnesses.

End MoreExamples.
